(** * cffi/cparser.py: the C declaration parser of cffi, embedded in Rocq

    The development follows [src/cffi/cparser.py].  The class [Parser] keeps
    three attributes ([_declarations], [_anonymous_counter] and
    [_structnode2type]); its methods walk the syntax tree produced by
    pycparser and build the type objects of [cffi.model].

    - pycparser's syntax tree is the inductive type [node]; the attributes
      read by the parser are the constructor arguments, and reading an
      attribute that a node class does not have raises [AttributeError].
    - The methods are state-passing functions in the monad [M]: a Python
      exception leaves every mutation performed before it in place, so a
      computation returns the final state on failure too.
    - [StructType], [UnionType] and [EnumType] instances have an identity and
      (for the first two) are mutated after their creation; they live in a
      store ([heap]) and the type graph refers to them by location. *)

From stdpp Require Import gmap strings list fin_maps pretty sorting.
From Stdlib Require Import ZArith String Ascii Lia.

Set Warnings "-register-all".

Local Open Scope string_scope.
Local Open Scope Z_scope.
Local Open Scope list_scope.

(** ** Exceptions *)

Inductive exn :=
| FFIError (msg : string)          (* api.FFIError *)
| CDefError (msg : string)         (* api.CDefError *)
| ParseError                       (* raised by pycparser on malformed text *)
| NameError (name : string)
| AttributeError
| IndexError
| TypeError
| ValueError
| AssertionError
| RecursionError.                  (* the call depth bound was reached *)

Inductive result (A : Type) :=
| Ok (a : A)
| Raise (e : exn).
Arguments Ok {A} a.
Arguments Raise {A} e.

Definition rbind {A B} (r : result A) (k : A -> result B) : result B :=
  match r with
  | Ok a => k a
  | Raise e => Raise e
  end.

(** The exceptions of [cffi.api]; everything else is an untyped Python
    crash. *)
Definition is_api_error (e : exn) : bool :=
  match e with
  | FFIError _ | CDefError _ => true
  | _ => false
  end.

(** ** The syntax tree of pycparser ([pycparser.c_ast]) *)

(** Object identity of a [Struct] or [Union] node: two occurrences of the
    same node object in the tree (pycparser shares the node between the
    declarators of [typedef struct { } foo_t, *foo_p]) carry the same
    identifier, two distinct node objects never do. *)
Definition node_id := nat.
Bind Scope nat_scope with node_id.

(** Expressions, as far as [_parse_constant] looks at them. *)
Inductive expr :=
| Constant (type : string) (value : string)
| UnaryOp (op : string) (e : expr)
| OtherExpr.                       (* ID, BinaryOp, Cast, ... *)

(** [c_ast.Enumerator]; [Enum.values.enumerators] is a list of them. *)
Record enumerator := Enumerator {
  enumerator_name : string;
  enumerator_value : option expr
}.

Inductive node :=
| Decl (name : option string) (type : node) (bitsize : option expr)
| Typedef (name : option string) (type : node)
| Typename (type : node)
| TypeDecl (declname : option string) (type : node)
| IdentifierType (names : list string)
| PtrDecl (type : node)
| ArrayDecl (type : node) (dim : option expr)
| FuncDecl (args : option (list node)) (type : node)  (* args.params *)
| Struct (id : node_id) (name : option string) (decls : option (list node))
| Union (id : node_id) (name : option string) (decls : option (list node))
| Enum (name : option string) (values : option (list enumerator))
| OtherNode.                       (* FuncDef, EllipsisParam, ID, ... *)

(** [OtherNode] stands for the node classes that the parser meets without
    looking inside: among the entries of [ast.ext] it reads [name] (a
    [FuncDef] has none), on a parameter it reads [type] (an [EllipsisParam]
    or an [ID] has none).  [names] is a list of strings; where pycparser
    gives a single string instead, [''.join] yields the same text. *)

(** Attribute reads. *)
Definition attr_name (n : node) : result (option string) :=
  match n with
  | Decl name _ _ | Typedef name _ | Struct _ name _ | Union _ name _
  | Enum name _ => Ok name
  | _ => Raise AttributeError
  end.

Definition attr_type (n : node) : result node :=
  match n with
  | Decl _ t _ | Typedef _ t | Typename t | TypeDecl _ t | PtrDecl t
  | ArrayDecl t _ | FuncDecl _ t => Ok t
  | _ => Raise AttributeError
  end.

Definition attr_bitsize (n : node) : result (option expr) :=
  match n with
  | Decl _ _ bitsize => Ok bitsize
  | _ => Raise AttributeError
  end.

(** Python truth value of a name attribute ([None] and [''] are false). *)
Definition truthy (name : option string) : bool :=
  match name with
  | None | Some "" => false
  | Some _ => true
  end.

(** ** The type graph ([cffi.model]) *)

Definition loc := nat.
Bind Scope nat_scope with loc.

(** Modelled from the spec: [cffi/model.py] is not part of the sources; the
    classes below are the variants of the type graph node of the data model
    ([Void], [Primitive], [Pointer], [Array (element, length)], [Function],
    [Struct], [Union], [Enum]), with the constructor arguments that
    [cparser.py] passes.  [Obj l] is a reference to the [StructType],
    [UnionType] or [EnumType] instance stored at [l]. *)
Inductive ctype :=
| void_type
| PrimitiveType (name : string)
| PointerType (totype : ctype)
| ArrayType (element : ctype) (length : option Z)
| FunctionType (args : list ctype) (result : ctype) (ellipsis : bool)
| Obj (l : loc).

(** Modelled from the spec: the attribute [item] that [cparser.py] reads on
    an [ArrayType], of which [cffi/model.py] holds the definition.  The data
    model gives an array its element and its length and names no [item];
    rule 1 of the type resolver says of the typedef branch, which returns
    [type.item], that it "turns a resolved Array into a Pointer to its
    element". *)
Definition ArrayType_item (element : ctype) (length : option Z) : ctype :=
  PointerType element.

Inductive object :=
| StructType (name : string) (fldnames : option (list (option string)))
    (fldtypes : option (list ctype)) (fldbitsize : option (list Z))
| UnionType (name : string) (fldnames : option (list (option string)))
    (fldtypes : option (list ctype)) (fldbitsize : option (list Z))
| EnumType (name : option string) (enumerators : list string)
    (enumvalues : list Z).

(** [tp.fldnames] *)
Definition obj_fldnames (o : object) : result (option (list (option string))) :=
  match o with
  | StructType _ names _ _ | UnionType _ names _ _ => Ok names
  | EnumType _ _ _ => Raise AttributeError
  end.

Definition obj_fldbitsize (o : object) : option (list Z) :=
  match o with
  | StructType _ _ _ bits | UnionType _ _ _ bits => bits
  | EnumType _ _ _ => None
  end.

(** [tp.fldnames = ...; tp.fldtypes = ...; tp.fldbitsize = ...] *)
Definition obj_set_fields (names : list (option string)) (types : list ctype)
    (bits : list Z) (o : object) : object :=
  match o with
  | StructType n _ _ _ => StructType n (Some names) (Some types) (Some bits)
  | UnionType n _ _ _ => UnionType n (Some names) (Some types) (Some bits)
  | EnumType n e v => EnumType n e v
  end.

(** ** The parser state *)

(** The attributes of a [Parser] instance, and the store [heap] of the model
    objects it has created.  [_structnode2type] is a [WeakKeyDictionary]
    keyed by the identity of the node: the collector drops the entry of a
    node that is no longer reachable, which the parser cannot observe, since
    it can only look up nodes of the tree at hand.  During a call the tree
    is reachable and the model keeps every entry; when the call ends the
    tree is given up, and so are the entries ([forget_nodes]). *)

Record Parser := mkParser {
  _declarations : gmap string ctype;
  _anonymous_counter : nat;
  _structnode2type : gmap node_id ctype;
  heap : list object
}.

(** [Parser.__init__] *)
Definition init : Parser :=
  {| _declarations := ∅; _anonymous_counter := 0;
     _structnode2type := ∅; heap := [] |}.

Definition M (A : Type) : Type := Parser -> result A * Parser.

Definition ret {A} (a : A) : M A := fun s => (Ok a, s).
Definition raise {A} (e : exn) : M A := fun s => (Raise e, s).
Definition lift {A} (r : result A) : M A := fun s => (r, s).
Definition bind {A B} (m : M A) (k : A -> M B) : M B :=
  fun s =>
    match m s with
    | (Ok a, s') => k a s'
    | (Raise e, s') => (Raise e, s')
    end.

Declare Scope py_scope.
Delimit Scope py_scope with py.
Notation "x <- m ;; k" := (bind m (fun x => k))
  (at level 100, m at next level, right associativity) : py_scope.
Notation "m ;;; k" := (bind m (fun _ => k))
  (at level 100, right associativity) : py_scope.
Local Open Scope py_scope.

Definition declarations_get (key : string) : M (option ctype) :=
  fun s => (Ok (_declarations s !! key), s).

(** [self._declarations[key] = obj] *)
Definition declarations_setitem (key : string) (obj : ctype) : M unit :=
  fun s =>
    (Ok tt, {| _declarations := <[key:=obj]> (_declarations s);
               _anonymous_counter := _anonymous_counter s;
               _structnode2type := _structnode2type s;
               heap := heap s |}).

(** [self._anonymous_counter += 1], returning the new value *)
Definition next_anonymous : M nat :=
  fun s =>
    (Ok (S (_anonymous_counter s)),
     {| _declarations := _declarations s;
        _anonymous_counter := S (_anonymous_counter s);
        _structnode2type := _structnode2type s;
        heap := heap s |}).

Definition structnode2type_get (i : node_id) : M (option ctype) :=
  fun s => (Ok (_structnode2type s !! i), s).

(** [self._structnode2type[type] = tp] *)
Definition structnode2type_setitem (i : node_id) (tp : ctype) : M unit :=
  fun s =>
    (Ok tt, {| _declarations := _declarations s;
               _anonymous_counter := _anonymous_counter s;
               _structnode2type := <[i:=tp]> (_structnode2type s);
               heap := heap s |}).

(** Instantiating a model class: the new object gets a fresh location. *)
Definition new (o : object) : M ctype :=
  fun s =>
    (Ok (Obj (List.length (heap s))),
     {| _declarations := _declarations s;
        _anonymous_counter := _anonymous_counter s;
        _structnode2type := _structnode2type s;
        heap := heap s ++ [o] |}).

Definition heap_get (l : loc) : M (option object) :=
  fun s => (Ok (heap s !! l), s).

Definition heap_alter (f : object -> object) (l : loc) : M unit :=
  fun s =>
    (Ok tt, {| _declarations := _declarations s;
               _anonymous_counter := _anonymous_counter s;
               _structnode2type := _structnode2type s;
               heap := alter f l (heap s) |}).

(** ** Python strings and lists *)

Definition newline : string := String "010"%char "".

(** [' '.join(names)] is [String.concat " " names]. *)

(** [str(name)] as done by ['%s' % (name,)] *)
Definition py_str (name : option string) : string :=
  match name with
  | None => "None"
  | Some n => n
  end.

(** [s[n:]] *)
Fixpoint string_drop (n : nat) (s : string) : string :=
  match n, s with
  | O, _ => s
  | S n', String _ rest => string_drop n' rest
  | S _, EmptyString => EmptyString
  end.

(** [csource.replace('...', '__dotdotdot__')] *)
Fixpoint replace_dotdotdot (csource : string) : string :=
  match csource with
  | String "." (String "." (String "." rest)) =>
      "__dotdotdot__" +:+ replace_dotdotdot rest
  | String c rest => String c (replace_dotdotdot rest)
  | EmptyString => EmptyString
  end.

(** [int(value)] on a token of the C lexer: a non-empty run of decimal
    digits denotes its value, any other token (hexadecimal, suffixed,
    floating, character or string constant) raises [ValueError]. *)
Definition digit_value (c : ascii) : option Z :=
  let n := Z.of_N (N_of_ascii c) in
  if (48 <=? n) && (n <=? 57) then Some (n - 48) else None.

Fixpoint int_digits (acc : Z) (s : string) : result Z :=
  match s with
  | EmptyString => Ok acc
  | String c rest =>
      match digit_value c with
      | Some d => int_digits (10 * acc + d) rest
      | None => Raise ValueError
      end
  end.

Definition int (value : string) : result Z :=
  match value with
  | EmptyString => Raise ValueError
  | _ => int_digits 0 value
  end.

(** [sorted(d)] for a dict with string keys *)
Definition string_le (a b : string) : Prop := String.leb a b = true.
#[local] Instance string_le_dec a b : Decision (string_le a b).
Proof. unfold string_le. apply _. Defined.

Definition sorted_keys {V} (d : gmap string V) : list string :=
  merge_sort string_le (map fst (map_to_list d)).

(** ** The methods of [Parser] that do not depend on the front end *)

(** [Parser._declare] *)
Definition _declare (name : string) (obj : ctype) : M unit :=
  found <- declarations_get name ;;
  match found with
  | Some _ => raise (FFIError ("multiple declarations of " +:+ name))
  | None => declarations_setitem name obj
  end.

(** [Parser._get_type_pointer] *)
Definition _get_type_pointer (type : ctype) : ctype :=
  match type with
  | FunctionType _ _ _ => type        (* "pointer-to-function" ~== "function" *)
  | _ => PointerType type
  end.

(** [Parser._parse_constant]; it reads no attribute of [self]. *)
Fixpoint _parse_constant (exprnode : expr) : result Z :=
  match exprnode with
  | Constant _ value => int value
  | UnaryOp op e =>
      if decide (op = "-") then rbind (_parse_constant e) (fun n => Ok (- n))
      else Raise (FFIError "unsupported non-constant or not immediately constant expression")
  | OtherExpr =>
      Raise (FFIError "unsupported non-constant or not immediately constant expression")
  end.

(** The loop of [_get_enum_type] over [decls.enumerators]. *)
Fixpoint enum_values (nextenumvalue : Z) (enumerators : list enumerator)
    : result (list Z) :=
  match enumerators with
  | [] => Ok []
  | enum :: rest =>
      rbind (match enumerator_value enum with
             | Some value => _parse_constant value
             | None => Ok nextenumvalue
             end) (fun nextenumvalue =>
      rbind (enum_values (nextenumvalue + 1) rest) (fun enumvalues =>
      Ok (nextenumvalue :: enumvalues)))
  end.

(** [Parser._get_enum_type] *)
Definition _get_enum_type (type : node) : M ctype :=
  match type with
  | Enum name decls =>
      let key := "enum " +:+ py_str name in
      found <- declarations_get key ;;
      match found with
      | Some tp => ret tp
      | None =>
          match decls with
          | Some enumerators_ =>
              let enumerators := map enumerator_name enumerators_ in
              enumvalues <- lift (enum_values 0 enumerators_) ;;
              tp <- new (EnumType name enumerators enumvalues) ;;
              declarations_setitem key tp ;;;
              ret tp
          | None =>   (* opaque enum *)
              new (EnumType name [] [])
          end
      end
  | _ => raise AttributeError
  end.

(** ** The type resolver *)

(** [isinstance(n.type, TypeDecl) and isinstance(n.type.type, IdentifierType)
    and n.type.type.names == names], the test applied to a parameter node. *)
Definition is_identifier_param (names : list string) (param : node)
    : result bool :=
  rbind (attr_type param) (fun t =>
  match t with
  | TypeDecl _ (IdentifierType names') => Ok (bool_decide (names' = names))
  | _ => Ok false
  end).

(** The synonym reduction of [_get_type] on [type.names]. *)
Definition reduce_synonyms (names : list string) : result (list string) :=
  let names :=
    if bool_decide (names = ["signed"]) || bool_decide (names = ["unsigned"])
    then names ++ ["int"] else names in
  match names with
  | [] => Raise IndexError                                  (* names[0] *)
  | first :: rest =>
      let names :=
        if bool_decide (first = "signed")
           && negb (bool_decide (names = ["signed"; "char"]))
        then rest else names in
      let names :=
        if (1 <? Z.of_nat (List.length names))
           && bool_decide (List.last names "" = "int")
           && negb (bool_decide (names = ["unsigned"; "int"]))
        then removelast names else names in
      Ok names
  end.

(** [tp.fldnames] on a type object *)
Definition tp_fldnames (tp : ctype) : M (option (list (option string))) :=
  match tp with
  | Obj l =>
      o <- heap_get l ;;
      match o with
      | Some o => lift (obj_fldnames o)
      | None => raise AttributeError
      end
  | _ => raise AttributeError
  end.

Definition tp_set_fields (tp : ctype) (names : list (option string))
    (types : list ctype) (bits : list Z) : M unit :=
  match tp with
  | Obj l => heap_alter (obj_set_fields names types bits) l
  | _ => raise AttributeError
  end.

Section Resolver.

(** The recursive calls [self._get_type(typenode, convert_array_to_pointer,
    force_pointer, name)] of the three mutually recursive methods. *)
Variable self_get_type : node -> bool -> bool -> option string -> M ctype.

(** [[self._get_type(argdeclnode.type, convert_array_to_pointer=True)
     for argdeclnode in params]] *)
Fixpoint get_arg_types (params : list node) : M (list ctype) :=
  match params with
  | [] => ret []
  | argdeclnode :: rest =>
      argtype <- lift (attr_type argdeclnode) ;;
      arg <- self_get_type argtype true false None ;;
      args <- get_arg_types rest ;;
      ret (arg :: args)
  end.

(** [Parser._parse_function_type] *)
Definition parse_function_type (typenode : node) (funcname : option string)
    : M ctype :=
  match typenode with
  | FuncDecl args result_node =>
      let params := match args with Some params => params | None => [] end in
      ellipsis <- lift (match last params with
                        | Some p => is_identifier_param ["__dotdotdot__"] p
                        | None => Ok false
                        end) ;;
      let params := if ellipsis : bool then removelast params else params in
      params <- lift (match params with
                      | [p] =>
                          rbind (is_identifier_param ["void"] p) (fun isvoid =>
                          Ok (if isvoid : bool then [] else params))
                      | _ => Ok params
                      end) ;;
      args <- get_arg_types params ;;
      result <- self_get_type result_node false false None ;;
      ret (FunctionType args result ellipsis)
  | _ => raise AttributeError
  end.

(** The loop of [_get_struct_or_union_type] over [type.decls]; the three
    lists are [fldnames], [fldtypes] and [fldbitsize]. *)
Fixpoint struct_fields (decls : list node)
    : M (list (option string) * list ctype * list Z) :=
  match decls with
  | [] => ret ([], [], [])
  | decl :: rest =>
      decltype <- lift (attr_type decl) ;;
      match decltype with
      | IdentifierType names =>
          if bool_decide (String.concat "" names = "__dotdotdot__")
          then raise (NameError "xxxx") else ret tt
      | _ => ret tt
      end ;;;
      declbitsize <- lift (attr_bitsize decl) ;;
      bitsize <- lift (match declbitsize with
                       | None => Ok (-1)
                       | Some e => _parse_constant e
                       end) ;;
      declname <- lift (attr_name decl) ;;
      fldtype <- self_get_type decltype false false None ;;
      flds <- struct_fields rest ;;
      let '(fldnames, fldtypes, fldbitsize) := flds in
      ret (declname :: fldnames, fldtype :: fldtypes, bitsize :: fldbitsize)
  end.

(** [Parser._get_struct_or_union_type] *)
Definition get_struct_or_union_type (kind : string) (type : node)
    (typenode : option node) : M ctype :=
  match type with
  | Struct id name decls | Union id name decls =>
      cached <- structnode2type_get id ;;
      match cached with
      | Some tp => ret tp
      | None =>
          found <-
            match name with
            | None =>
                explicit_name <-
                  match typenode with
                  | Some (TypeDecl (Some declname) _) =>
                      ret ("$" +:+ declname)
                  | Some (TypeDecl None _) | None =>
                      counter <- next_anonymous ;;
                      ret ("$" +:+ pretty counter)
                  | Some _ => raise AttributeError
                  end ;;
                ret (explicit_name, None)
            | Some name =>
                tp <- declarations_get (kind +:+ " " +:+ name) ;;
                ret (name, tp)
            end ;;
          let '(explicit_name, tp) := found in
          tp <-
            match tp with
            | Some tp => ret tp
            | None =>
                tp <- (if bool_decide (kind = "struct")
                       then new (StructType explicit_name None None None)
                       else if bool_decide (kind = "union")
                       then new (UnionType explicit_name None None None)
                       else raise AssertionError) ;;
                match name with
                | Some name => _declare (kind +:+ " " +:+ name) tp
                | None => ret tt
                end ;;;
                ret tp
            end ;;
          structnode2type_setitem id tp ;;;
          match decls with
          | None => ret tp
          | Some decls =>
              fldnames <- tp_fldnames tp ;;
              match fldnames with
              | Some _ =>
                  raise (CDefError ("duplicate declaration of struct "
                                    +:+ py_str name))
              | None =>
                  flds <- struct_fields decls ;;
                  let '(fldnames, fldtypes, fldbitsize) := flds in
                  tp_set_fields tp fldnames fldtypes fldbitsize ;;;
                  ret tp
              end
          end
      end
  | _ => raise AttributeError
  end.

(** [Parser._get_type] *)
Definition get_type (typenode : node) (convert_array_to_pointer : bool)
    (force_pointer : bool) (name : option string) : M ctype :=
  (* first, dereference typedefs, if we have it already parsed, we're good *)
  typedef <-
    match typenode with
    | TypeDecl _ (IdentifierType [ident]) =>
        declarations_get ("typedef " +:+ ident)
    | _ => ret None
    end ;;
  match typedef with
  | Some type =>
      match type with
      | ArrayType element length =>
          if convert_array_to_pointer then ret (ArrayType_item element length)
          else ret type
      | _ =>
          if force_pointer then ret (_get_type_pointer type) else ret type
      end
  | None =>
      match typenode with
      | ArrayDecl elem dim =>
          (* array type *)
          if convert_array_to_pointer then
            t <- self_get_type elem false false None ;;
            ret (_get_type_pointer t)
          else
            length <- lift (match dim with
                            | None => Ok None
                            | Some dim => rbind (_parse_constant dim)
                                            (fun n => Ok (Some n))
                            end) ;;
            t <- self_get_type elem false false None ;;
            ret (ArrayType t length)
      | _ =>
          if force_pointer then
            t <- self_get_type typenode false false None ;;
            ret (PointerType t)
          else
            match typenode with
            | PtrDecl target =>
                (* pointer type *)
                t <- self_get_type target false false None ;;
                ret (_get_type_pointer t)
            | TypeDecl _ (IdentifierType names) =>
                (* assume a primitive type *)
                names <- lift (reduce_synonyms names) ;;
                let ident := String.concat " " names in
                if bool_decide (ident = "void") then ret void_type
                else ret (PrimitiveType ident)
            | TypeDecl _ ((Struct _ _ _) as type) =>
                get_struct_or_union_type "struct" type (Some typenode)
            | TypeDecl _ ((Union _ _ _) as type) =>
                get_struct_or_union_type "union" type (Some typenode)
            | TypeDecl _ ((Enum _ _) as type) =>
                _get_enum_type type
            | FuncDecl _ _ =>
                (* a function type *)
                parse_function_type typenode name
            | _ => raise (FFIError "bad or unsupported type declaration")
            end
      end
  end.

End Resolver.

(** The recursion of [_get_type] through [_parse_function_type] and
    [_get_struct_or_union_type] follows the nesting of the syntax tree;
    [fuel] bounds the depth of the nested [_get_type] calls, and reaching
    the bound raises [RecursionError].  A bound above the nesting depth of
    the node is never reached ([get_type_terminates]), and all such bounds
    give the same result ([get_type_fuel_irrelevant]). *)
Fixpoint _get_type (fuel : nat) (typenode : node)
    (convert_array_to_pointer force_pointer : bool) (name : option string)
    : M ctype :=
  match fuel with
  | O => raise RecursionError
  | S fuel' =>
      get_type (_get_type fuel') typenode convert_array_to_pointer
        force_pointer name
  end.

Definition _parse_function_type (fuel : nat) (typenode : node)
    (funcname : option string) : M ctype :=
  parse_function_type (_get_type fuel) typenode funcname.

Definition _get_struct_or_union_type (fuel : nat) (kind : string)
    (type : node) (typenode : option node) : M ctype :=
  get_struct_or_union_type (_get_type fuel) kind type typenode.

(** ** The entry points *)

(** [Parser._parse_decl]; [parse] calls it on [Decl] nodes only. *)
Definition _parse_decl (fuel : nat) (decl : node) : M unit :=
  match decl with
  | Decl declname node _ =>
      match node with
      | FuncDecl _ _ =>
          match declname with
          | Some name =>
              tp <- _get_type fuel node false false declname ;;
              _declare ("function " +:+ name) tp
          | None => raise TypeError            (* 'function ' + None *)
          end
      | _ =>
          match node with
          | Struct _ _ decls =>
              (* XXX do we need self._declare in any of those? *)
              match decls with
              | Some _ =>
                  _ <- _get_struct_or_union_type fuel "struct" node None ;;
                  ret tt
              | None => ret tt
              end
          | Union _ _ decls =>
              match decls with
              | Some _ =>
                  _ <- _get_struct_or_union_type fuel "union" node None ;;
                  ret tt
              | None => ret tt
              end
          | Enum _ values =>
              match values with
              | Some _ => _ <- _get_enum_type node ;; ret tt
              | None => ret tt
              end
          | _ =>
              if negb (truthy declname)
              then raise (CDefError "construct does not declare any variable")
              else ret tt
          end ;;;
          match declname with
          | Some name =>
              if truthy declname then
                tp <- _get_type fuel node false false None ;;
                _declare ("variable " +:+ name) tp
              else ret tt
          | None => ret tt
          end
      end
  | _ => raise AttributeError
  end.

(** The first loop of [parse]: consume the iterator up to and including the
    first declaration named [__dotdotdot__]. *)
Fixpoint skip_to_dotdotdot (ext : list node) : result (list node) :=
  match ext with
  | [] => Ok []
  | decl :: rest =>
      rbind (attr_name decl) (fun name =>
      if bool_decide (name = Some "__dotdotdot__") then Ok rest
      else skip_to_dotdotdot rest)
  end.

(** The second loop of [parse]. *)
Fixpoint parse_decls (fuel : nat) (ext : list node) : M unit :=
  match ext with
  | [] => ret tt
  | decl :: rest =>
      match decl with
      | Decl _ _ _ => _parse_decl fuel decl
      | Typedef name type =>
          match name with
          | Some n =>
              if truthy name then
                tp <- _get_type fuel type false false None ;;
                _declare ("typedef " +:+ n) tp
              else raise (CDefError "typedef does not declare any name")
          | None => raise (CDefError "typedef does not declare any name")
          end
      | _ => raise (CDefError "unrecognized construct")
      end ;;;
      parse_decls fuel rest
  end.

Section FrontEnd.

(** [_get_parser().parse]: the grammar front end, from the text to the
    list [ast.ext] of top-level nodes (or a parse failure). *)
Variable cparser_parse : string -> result (list node).

(** The text handed to the front end by [Parser._parse]. *)
Definition preprocess (declarations : gmap string ctype) (csource : string)
    : string :=
  let csourcelines :=
    omap (fun name =>
            if String.prefix "typedef " name
            then Some ("typedef int " +:+ string_drop 8 name +:+ ";")
            else None) (sorted_keys declarations) in
  let csourcelines :=
    csourcelines ++ ["typedef int __dotdotdot__;"]
                 ++ [replace_dotdotdot csource] in
  String.concat newline csourcelines.

(** [Parser._parse] *)
Definition _parse (csource : string) : M (list node) :=
  fun s => (cparser_parse (preprocess (_declarations s) csource), s).

(** [Parser.parse] *)
Definition parse (fuel : nat) (csource : string) : M unit :=
  ext <- _parse csource ;;
  (* find the first "__dotdotdot__" and use that as a separator
     between the repeated typedefs and the real csource *)
  iterator <- lift (skip_to_dotdotdot ext) ;;
  parse_decls fuel iterator.

(** [Parser.parse_type] *)
Definition parse_type (fuel : nat) (cdecl : string) (force_pointer : bool)
    : M ctype :=
  ext <- _parse ("void __dummy(" +:+ cdecl +:+ ");") ;;
  typenode <- lift (
    match last ext with                                   (* ast.ext[-1] *)
    | None => Raise IndexError
    | Some decl =>
        rbind (attr_type decl) (fun t =>                  (* .type *)
        match t with
        | FuncDecl (Some (param :: _)) _ => attr_type param
                                                (* .args.params[0].type *)
        | FuncDecl (Some []) _ => Raise IndexError
        | _ => Raise AttributeError
        end)
    end) ;;
  _get_type fuel typenode false force_pointer None.

End FrontEnd.

(** * The vocabulary of the statements *)

(** ** How a call changes the parser state *)

(** The keys of the tag namespaces of the Declaration Table. *)
Definition tag_key (k : string) : Prop :=
  ∃ name, k = "struct " +:+ name ∨ k = "union " +:+ name
          ∨ k = "enum " +:+ name.

(** What an object of the store keeps for its lifetime: its class and tag of
    a struct or union (the field lists are set later), everything of an
    enum. *)
Definition same_class (o o' : object) : Prop :=
  match o, o' with
  | StructType n _ _ _, StructType n' _ _ _
  | UnionType n _ _ _, UnionType n' _ _ _ => n = n'
  | EnumType _ _ _, EnumType _ _ _ => o = o'
  | _, _ => False
  end.

(** [grows s s']: what holds between the state before and after any piece of
    the resolver, whether it returns or raises.  Entries of the Declaration
    Table and of the identity cache are never removed or rebound, new keys of
    the table are tag keys, the counter and the store only grow, and the
    objects of the store stay in place. *)
Record grows (s s' : Parser) : Prop := mkGrows {
  grows_objects : ∀ l o, heap s !! l = Some o →
                         ∃ o', heap s' !! l = Some o' ∧ same_class o o';
  grows_declarations : _declarations s ⊆ _declarations s';
  grows_new_keys : ∀ k, is_Some (_declarations s' !! k) →
                        is_Some (_declarations s !! k) ∨ tag_key k;
  grows_cache : _structnode2type s ⊆ _structnode2type s';
  grows_counter : (_anonymous_counter s ≤ _anonymous_counter s')%nat;
  grows_heap : (List.length (heap s) ≤ List.length (heap s'))%nat
}.

(** A piece of a method whose every run, returning or raising, only
    extends the state. *)
Definition preserves {A} (m : M A) : Prop := ∀ s, grows s (m s).2.

(** Pieces of a method that leave the identity cache alone. *)
Definition keeps_cache {A} (m : M A) : Prop :=
  ∀ s, _structnode2type (m s).2 = _structnode2type s.

(** Entries of the Declaration Table are never removed or rebound. *)
Definition keeps_declarations {A} (m : M A) : Prop :=
  ∀ s, _declarations s ⊆ _declarations (m s).2.

(** A piece of a method that, when it raises, has only extended the state
    as the resolver does: it has registered tags at most. *)
Definition fails_clean {A} (m : M A) : Prop :=
  ∀ s e, (m s).1 = Raise e → grows s (m s).2.

(** The end of a call of an entry point: the syntax tree of the call is no
    longer reachable, and the [WeakKeyDictionary] loses the entries of its
    nodes.  The next call gets a tree of new nodes from the front end, so
    that no entry of an earlier tree is ever looked up again, whether the
    collector has dropped it or not; the model drops them all, and the node
    identifiers of two trees may coincide. *)
Definition forget_nodes (s : Parser) : Parser :=
  {| _declarations := _declarations s;
     _anonymous_counter := _anonymous_counter s;
     _structnode2type := ∅;
     heap := heap s |}.

(** A sequence of calls of the two entry points on one parser. *)
Inductive call :=
| Call_parse (csource : string)
| Call_parse_type (cdecl : string) (force_pointer : bool).

Definition run_call (cparser_parse : string → result (list node))
    (fuel : nat) (s : Parser) (c : call) : Parser :=
  match c with
  | Call_parse csource =>
      forget_nodes (parse cparser_parse fuel csource s).2
  | Call_parse_type cdecl force_pointer =>
      forget_nodes (parse_type cparser_parse fuel cdecl force_pointer s).2
  end.

Definition run_calls (cparser_parse : string → result (list node))
    (fuel : nat) (calls : list call) (s : Parser) : Parser :=
  foldl (run_call cparser_parse fuel) s calls.

(** ** The two halves of the aggregate resolver *)

(** [_get_struct_or_union_type] on a node that the cache does not hold runs
    in two halves, around the cache write.  [struct_skeleton] is the code
    between the cache lookup and the cache write: it finds or creates the
    type object. *)
Definition struct_skeleton (kind : string) (name : option string)
    (typenode : option node) : M ctype :=
  found <-
    match name with
    | None =>
        explicit_name <-
          match typenode with
          | Some (TypeDecl (Some declname) _) => ret ("$" +:+ declname)
          | Some (TypeDecl None _) | None =>
              counter <- next_anonymous ;;
              ret ("$" +:+ pretty counter)
          | Some _ => raise AttributeError
          end ;;
        ret (explicit_name, None)
    | Some name =>
        tp <- declarations_get (kind +:+ " " +:+ name) ;;
        ret (name, tp)
    end ;;
  let '(explicit_name, tp) := found in
  match tp with
  | Some tp => ret tp
  | None =>
      tp <- (if bool_decide (kind = "struct")
             then new (StructType explicit_name None None None)
             else if bool_decide (kind = "union")
             then new (UnionType explicit_name None None None)
             else raise AssertionError) ;;
      match name with
      | Some name => _declare (kind +:+ " " +:+ name) tp
      | None => ret tt
      end ;;;
      ret tp
  end.

(** [struct_body] is the code after the cache write: it resolves the field
    list, if there is one, and sets the fields of the type object. *)
Definition struct_body
    (self_get_type : node → bool → bool → option string → M ctype)
    (tp : ctype) (name : option string) (decls : option (list node))
    : M ctype :=
  match decls with
  | None => ret tp
  | Some decls =>
      fldnames <- tp_fldnames tp ;;
      match fldnames with
      | Some _ =>
          raise (CDefError ("duplicate declaration of struct "
                            +:+ py_str name))
      | None =>
          flds <- struct_fields self_get_type decls ;;
          let '(fldnames, fldtypes, fldbitsize) := flds in
          tp_set_fields tp fldnames fldtypes fldbitsize ;;;
          ret tp
      end
  end.

(** [type] is a [Struct] or [Union] node with these attributes. *)
Definition is_struct_or_union (type : node) (id : node_id)
    (name : option string) (decls : option (list node)) : Prop :=
  type = Struct id name decls ∨ type = Union id name decls.

(** ** Constant expressions *)

(** The values of the constant expressions, as the Constant Evaluator is
    described: an integer literal, or the negation of a constant
    expression. *)
Inductive constant_value : expr → Z → Prop :=
| constant_literal type value n :
    int value = Ok n → constant_value (Constant type value) n
| constant_negation e n :
    constant_value e n → constant_value (UnaryOp "-" e) (- n).

(** The bit size recorded for a field declaration. *)
Definition field_bitsize (decl : node) (bitsize : Z) : Prop :=
  match attr_bitsize decl with
  | Ok None => bitsize = -1
  | Ok (Some e) => constant_value e bitsize
  | Raise _ => False
  end.

(** ** Nesting depth and the call depth bound *)

(** The nesting depth of a node. *)
Fixpoint node_depth (n : node) : nat :=
  match n with
  | Decl _ t _ | Typedef _ t | Typename t | TypeDecl _ t | PtrDecl t
  | ArrayDecl t _ => S (node_depth t)
  | FuncDecl args t =>
      S (Nat.max (node_depth t)
           (match args with
            | Some params => foldr (λ p d, Nat.max (node_depth p) d) O params
            | None => O
            end))
  | Struct _ _ decls | Union _ _ decls =>
      S (match decls with
         | Some decls => foldr (λ p d, Nat.max (node_depth p) d) O decls
         | None => O
         end)
  | IdentifierType _ | Enum _ _ | OtherNode => O
  end.

(** The largest nesting depth in a list of nodes. *)
Definition max_depth (l : list node) : nat :=
  foldr (λ p d, Nat.max (node_depth p) d) O l.

(** A piece of a method that never reaches the call depth bound. *)
Definition terminates {A} (m : M A) : Prop :=
  ∀ s, (m s).1 ≠ Raise RecursionError.

(** ** Example inputs *)

Module Examples.

(** [typedef int __dotdotdot__;], the line [_parse] puts before the text *)
Definition dotdotdot_typedef : node :=
  Typedef (Some "__dotdotdot__")
    (TypeDecl (Some "__dotdotdot__") (IdentifierType ["int"])).

(** [int name;] *)
Definition int_decl (name : string) : node :=
  Decl (Some name) (TypeDecl (Some name) (IdentifierType ["int"])) None.

(** A front end that knows one text, and the tree pycparser builds for it. *)
Definition front_end (csource : string) (ext : list node)
    : string → result (list node) :=
  fun text =>
    if bool_decide (text = "typedef int __dotdotdot__;" +:+ newline
                           +:+ csource)
    then Ok (dotdotdot_typedef :: ext) else Raise ParseError.

(** [int x; int y[n];]: the length of [y] is no constant expression. *)
Definition int_x_then_y :=
  front_end "int x; int y[n];"
    [int_decl "x";
     Decl (Some "y")
       (ArrayDecl (TypeDecl (Some "y") (IdentifierType ["int"]))
          (Some OtherExpr)) None].

End Examples.

Module C2_example.

(** [typedef int arr[5]; void f(arr a);] *)
Definition ext : list node :=
  [Typedef (Some "arr")
     (ArrayDecl (TypeDecl (Some "arr") (IdentifierType ["int"]))
        (Some (Constant "int" "5")));
   Decl (Some "f")
     (FuncDecl
        (Some [Decl (Some "a")
                 (TypeDecl (Some "a") (IdentifierType ["arr"])) None])
        (TypeDecl (Some "f") (IdentifierType ["void"]))) None].

Definition csource := "typedef int arr[5]; void f(arr a);".

Definition after : Parser :=
  (parse (Examples.front_end csource ext) 3 csource init).2.

End C2_example.

Module C3_example.

(** [struct Node { struct Node *next; }]: [outer] is the node that carries
    the field list, [inner] the node of the mention inside it. *)
Definition node_struct (outer inner : node_id) (tag field : string) : node :=
  Struct outer (Some tag)
    (Some [Decl (Some field)
             (PtrDecl (TypeDecl (Some field) (Struct inner (Some tag) None)))
             None]).

End C3_example.

Module C4_example.

(** The parser after [int x;]. *)
Definition after_x : Parser :=
  (parse (Examples.front_end "int x;" [Examples.int_decl "x"]) 1 "int x;"
     init).2.

(** [enum Color { RED }; enum Color { BLUE };] *)
Definition color : node := Enum (Some "Color") (Some [Enumerator "RED" None]).

Definition color_again : node :=
  Enum (Some "Color") (Some [Enumerator "BLUE" None]).

Definition csource := "enum Color { RED }; enum Color { BLUE };".

Definition front_end :=
  Examples.front_end csource [Decl None color None; Decl None color_again None].

Definition after_color : Parser := (_get_enum_type color init).2.

End C4_example.

Module C5_example.

(** [struct Point { int x; }], at two places of the text. *)
Definition point (id : node_id) : node :=
  Struct id (Some "Point") (Some [Examples.int_decl "x"]).

Definition after : Parser :=
  (_get_struct_or_union_type 1 "struct" (point 1) None init).2.

Definition point_type : object :=
  StructType "Point" (Some [Some "x"]) (Some [PrimitiveType "int"])
    (Some [-1]).

End C5_example.

Module C6_example.

(** [struct foo { int a; ...; };] *)
Definition decls : list node :=
  [Examples.int_decl "a"; Decl None (IdentifierType ["__dotdotdot__"]) None].

Definition foo : node := Struct 1 (Some "foo") (Some decls).

End C6_example.

Module C9_example.

(** The length of [int a[-1]] *)
Definition negative_length : expr := UnaryOp "-" (Constant "int" "1").

(** [struct flags { int a : 3; int b; }] *)
Definition decls : list node :=
  [Decl (Some "a") (TypeDecl (Some "a") (IdentifierType ["int"]))
     (Some (Constant "int" "3"));
   Examples.int_decl "b"].

Definition flags : node := Struct 1 (Some "flags") (Some decls).

Definition after : Parser :=
  (_get_struct_or_union_type 1 "struct" flags None init).2.

End C9_example.

Module C10_example.

(** [parse_type] on the text [struct foo]; [csource] is the text handed to
    the front end. *)
Definition csource := "void __dummy(struct foo);".

Definition ext : list node :=
  [Decl (Some "__dummy")
     (FuncDecl
        (Some [Typename (TypeDecl None (Struct 1 (Some "foo") None))])
        (TypeDecl (Some "__dummy") (IdentifierType ["void"]))) None].

Definition run : result ctype * Parser :=
  parse_type (Examples.front_end csource ext) 3 "struct foo" false init.

End C10_example.

(** * The vocabulary of the further properties *)

(** [keeps R m]: every run of [m], returning or raising, relates the state
    before to the state after by [R]. *)
Definition keeps (R : Parser → Parser → Prop) {A} (m : M A) : Prop :=
  ∀ s, R s (m s).2.

(** The outcome of a call with a function applied to the value returned. *)
Definition map_ok {A B} (f : A → B) (r : result A * Parser)
    : result B * Parser :=
  match r with
  | (Ok a, s) => (Ok (f a), s)
  | (Raise e, s) => (Raise e, s)
  end.

(** A function type with its variadic flag set. *)
Definition variadic (tp : ctype) : ctype :=
  match tp with
  | FunctionType args result _ => FunctionType args result true
  | _ => tp
  end.

(** A parameter declared as an array, declared as a pointer instead. *)
Definition decay_param (param : node) : node :=
  match param with
  | Decl name (ArrayDecl elem _) bitsize => Decl name (PtrDecl elem) bitsize
  | Typename (ArrayDecl elem _) => Typename (PtrDecl elem)
  | _ => param
  end.

(** The value that the enum evaluator gives to the enumerator at position
    [i] of a list, where [vs] are the values of the whole list and [first]
    the value of a leading enumerator without explicit value. *)
Definition enumerator_rule (first : Z) (vs : list Z) (i : nat)
    (enum : enumerator) (v : Z) : Prop :=
  match enumerator_value enum with
  | Some e => _parse_constant e = Ok v
  | None =>
      match i with
      | O => v = first
      | S j => ∃ u, vs !! j = Some u ∧ v = u + 1
      end
  end.

(** An object whose attributes are final: an enum, or a struct or union
    whose field list has been set. *)
Definition complete (o : object) : Prop :=
  match o with
  | StructType _ (Some _) _ _ | UnionType _ (Some _) _ _ | EnumType _ _ _ =>
      True
  | _ => False
  end.

(** [evolves s s']: how the parser state changes while a syntax tree is
    processed.  Every object stays where it is, with its class and tag; a
    complete object does not change at all; entries of the Declaration Table
    and of the identity cache are never removed or rebound; the counter of
    anonymous aggregates never decreases. *)
Record evolves (s s' : Parser) : Prop := mkEvolves {
  evolves_objects : ∀ l o, heap s !! l = Some o →
                           ∃ o', heap s' !! l = Some o' ∧ same_class o o';
  evolves_complete : ∀ l o, heap s !! l = Some o → complete o →
                            heap s' !! l = Some o;
  evolves_declarations : _declarations s ⊆ _declarations s';
  evolves_cache : _structnode2type s ⊆ _structnode2type s';
  evolves_counter : (_anonymous_counter s ≤ _anonymous_counter s')%nat
}.

(** [persists s s']: what lasts from one call of an entry point to the
    next ones.  It is [evolves] without the identity cache, whose entries
    last as long as the syntax tree of one call. *)
Record persists (s s' : Parser) : Prop := mkPersists {
  persists_objects : ∀ l o, heap s !! l = Some o →
                            ∃ o', heap s' !! l = Some o' ∧ same_class o o';
  persists_complete : ∀ l o, heap s !! l = Some o → complete o →
                             heap s' !! l = Some o;
  persists_declarations : _declarations s ⊆ _declarations s';
  persists_counter : (_anonymous_counter s ≤ _anonymous_counter s')%nat
}.

(** The incomplete object created for an aggregate of a kind. *)
Definition new_aggregate (kind name : string) : object :=
  if bool_decide (kind = "struct") then StructType name None None None
  else UnionType name None None None.

(** The display name of an anonymous aggregate: taken from the enclosing
    declarator when it has a name, and from the counter otherwise. *)
Definition anonymous_name (typenode : option node) (counter : nat) : string :=
  match typenode with
  | Some (TypeDecl (Some declname) _) => "$" +:+ declname
  | _ => "$" +:+ pretty (S counter)
  end.

(** The name that the enclosing declarator gives, if there is one. *)
Definition declarator_name (typenode : option node) : option string :=
  match typenode with
  | Some (TypeDecl declname _) => declname
  | _ => None
  end.

(** The counter after an anonymous aggregate has been named: it moves when
    the name is taken from it. *)
Definition next_counter (typenode : option node) (counter : nat) : nat :=
  match declarator_name typenode with
  | Some _ => counter
  | None => S counter
  end.

(** The declarators that the resolver passes along with an aggregate. *)
Definition is_declarator (typenode : option node) : Prop :=
  match typenode with
  | None | Some (TypeDecl _ _) => True
  | Some _ => False
  end.

(** The three field attributes of an aggregate, once they are set. *)
Definition obj_fields (o : object)
    : option (list (option string) * list ctype * list Z) :=
  match o with
  | StructType _ (Some names) (Some types) (Some bits)
  | UnionType _ (Some names) (Some types) (Some bits) =>
      Some (names, types, bits)
  | _ => None
  end.

(** [closed n tp]: every object that the type [tp] refers to lies below [n],
    the size of the store. *)
Fixpoint closed (n : nat) (tp : ctype) : bool :=
  match tp with
  | void_type | PrimitiveType _ => true
  | PointerType totype => closed n totype
  | ArrayType item _ => closed n item
  | FunctionType args result _ => forallb (closed n) args && closed n result
  | Obj l => bool_decide (l < n)%nat
  end.

Definition obj_closed (n : nat) (o : object) : bool :=
  match o with
  | StructType _ _ (Some types) _ | UnionType _ _ (Some types) _ =>
      forallb (closed n) types
  | _ => true
  end.

(** [tagged h key tp]: if [key] is a key of a tag namespace, [tp] is an
    object of the store [h] of the class of the namespace, with that tag. *)
Definition tagged (h : list object) (key : string) (tp : ctype) : Prop :=
  (∀ name, key = "struct " +:+ name →
     ∃ l names types bits,
       tp = Obj l ∧ h !! l = Some (StructType name names types bits))
  ∧ (∀ name, key = "union " +:+ name →
       ∃ l names types bits,
         tp = Obj l ∧ h !! l = Some (UnionType name names types bits))
  ∧ (∀ name, key = "enum " +:+ name →
       ∃ l tag enumerators enumvalues,
         tp = Obj l ∧ h !! l = Some (EnumType tag enumerators enumvalues)
         ∧ py_str tag = name).

(** A well-formed parser state: the types held by the Declaration Table, by
    the identity cache and by the fields of the objects refer to objects of
    the store only, and every entry under a tag key is an object of the
    class of its namespace that carries the tag. *)
Record well_formed (s : Parser) : Prop := mkWellFormed {
  wf_declarations : ∀ key tp, _declarations s !! key = Some tp →
      closed (List.length (heap s)) tp = true ∧ tagged (heap s) key tp;
  wf_cache : ∀ i tp, _structnode2type s !! i = Some tp →
      closed (List.length (heap s)) tp = true;
  wf_heap : ∀ l o, heap s !! l = Some o →
      obj_closed (List.length (heap s)) o = true
}.

(** [hoare P m Q]: from a well-formed state that satisfies [P], every run of
    [m] ends in a well-formed state, and a value it returns satisfies [Q]
    there. *)
Definition hoare {A} (P : Parser → Prop) (m : M A) (Q : A → Parser → Prop)
    : Prop :=
  ∀ s, well_formed s → P s →
    well_formed (m s).2 ∧ ∀ a, (m s).1 = Ok a → Q a (m s).2.

(** Pieces of a method that never shrink the store. *)
Definition extends_heap {A} (m : M A) : Prop :=
  ∀ s, (List.length (heap s) ≤ List.length (heap (m s).2))%nat.

(** Facts about the state that survive when the store is extended. *)
Definition stable (F : Parser → Prop) : Prop :=
  ∀ s s', (List.length (heap s) ≤ List.length (heap s'))%nat → F s → F s'.

Definition closed_in (tp : ctype) (s : Parser) : Prop :=
  closed (List.length (heap s)) tp = true.

Definition all_closed_in (tps : list ctype) (s : Parser) : Prop :=
  forallb (closed (List.length (heap s))) tps = true.

(** The typedef keys of a Declaration Table. *)
Definition typedef_keys (d : gmap string ctype) : gset string :=
  filter (λ key, String.prefix "typedef " key = true) (dom d).

Module Extra_examples.

(** [enum Color { RED, GREEN = 5, BLUE }] *)
Definition color_enumerators : list enumerator :=
  [Enumerator "RED" None; Enumerator "GREEN" (Some (Constant "int" "5"));
   Enumerator "BLUE" None].

Definition color : node := Enum (Some "Color") (Some color_enumerators).

(** The parameters of [int add(int a, int b, ...)] *)
Definition dotdotdot_param : node :=
  Typename (TypeDecl None (IdentifierType ["__dotdotdot__"])).

Definition void_param : node :=
  Typename (TypeDecl None (IdentifierType ["void"])).

Definition int_result : node := TypeDecl (Some "add") (IdentifierType ["int"]).

(** [struct tag { struct tag { } *field; }]: the field list of [tag] is
    given by the node [outer], and again, empty, by the node [inner] inside
    it. *)
Definition redefining_struct (outer inner : node_id) (tag field : string)
    : node :=
  Struct outer (Some tag)
    (Some [Decl (Some field)
             (PtrDecl (TypeDecl (Some field)
                         (Struct inner (Some tag) (Some []))))
             None]).

(** [typedef int myint;] *)
Definition myint_typedef : node :=
  Typedef (Some "myint") (TypeDecl (Some "myint") (IdentifierType ["int"])).

(** [myint x;] *)
Definition myint_x : node :=
  Decl (Some "x") (TypeDecl (Some "x") (IdentifierType ["myint"])) None.

(** The parser after [parse("typedef int myint;")]. *)
Definition with_myint : Parser := (parse_decls 1 [myint_typedef] init).2.

(** A parser where [myint] is a pointer type, and [x] a variable. *)
Definition with_other_myint : Parser :=
  {| _declarations := {[ "typedef myint" := PointerType void_type;
                         "variable x" := PrimitiveType "int" ]};
     _anonymous_counter := 0; _structnode2type := ∅; heap := [] |}.

(** A front end that knows the text that [_parse] makes of [myint x;] when
    [myint] is declared, and the tree pycparser builds for it. *)
Definition myint_front_end : string → result (list node) :=
  fun text =>
    if bool_decide (text = "typedef int myint;" +:+ newline
                           +:+ "typedef int __dotdotdot__;" +:+ newline
                           +:+ "myint x;")
    then Ok [myint_typedef; Examples.dotdotdot_typedef; myint_x]
    else Raise ParseError.

End Extra_examples.

(** * Properties *)

(** ** Every piece of the resolver only extends the state *)

Lemma same_class_refl o : same_class o o.
Proof. by destruct o. Qed.

Lemma same_class_trans o1 o2 o3 :
  same_class o1 o2 → same_class o2 o3 → same_class o1 o3.
Proof. destruct o1, o2, o3; simpl; try done; congruence. Qed.

Lemma same_class_set_fields names types bits o :
  same_class o (obj_set_fields names types bits o).
Proof. by destruct o. Qed.

Lemma objects_refl (h : list object) l o :
  h !! l = Some o → ∃ o', h !! l = Some o' ∧ same_class o o'.
Proof. intros H. exists o. auto using same_class_refl. Qed.

#[local] Hint Resolve objects_refl : core.

Lemma grows_refl s : grows s s.
Proof. split; eauto. Qed.

Lemma grows_trans s1 s2 s3 : grows s1 s2 → grows s2 s3 → grows s1 s3.
Proof.
  intros [o1 d1 k1 c1 a1 h1] [o2 d2 k2 c2 a2 h2]. split.
  - intros l o Ho. destruct (o1 l o Ho) as (o' & Ho' & Hc).
    destruct (o2 l o' Ho') as (o'' & Ho'' & Hc').
    exists o''. eauto using same_class_trans.
  - by trans (_declarations s2).
  - intros k Hk. destruct (k2 k Hk) as [Hk'|]; auto.
  - by trans (_structnode2type s2).
  - lia.
  - lia.
Qed.

Lemma preserves_ret {A} (a : A) : preserves (ret a).
Proof. intros s. apply grows_refl. Qed.

Lemma preserves_raise {A} e : preserves (@raise A e).
Proof. intros s. apply grows_refl. Qed.

Lemma preserves_lift {A} (r : result A) : preserves (lift r).
Proof. intros s. apply grows_refl. Qed.

Lemma preserves_bind {A B} (m : M A) (k : A → M B) :
  preserves m → (∀ a, preserves (k a)) → preserves (bind m k).
Proof.
  intros Hm Hk s. unfold bind. specialize (Hm s).
  destruct (m s) as [[a|e] s1]; simpl in *; auto.
  eapply grows_trans; [exact Hm | apply Hk].
Qed.

Lemma preserves_bind_raise {A B} e (k : A → M B) : preserves (bind (raise e) k).
Proof. intros s. apply grows_refl. Qed.

Lemma preserves_declarations_get key : preserves (declarations_get key).
Proof. intros s. apply grows_refl. Qed.

Lemma preserves_structnode2type_get i : preserves (structnode2type_get i).
Proof. intros s. apply grows_refl. Qed.

Lemma preserves_heap_get l : preserves (heap_get l).
Proof. intros s. apply grows_refl. Qed.

Lemma preserves_next_anonymous : preserves next_anonymous.
Proof. intros s. split; simpl; auto. Qed.

Lemma objects_app (h : list object) o' l o :
  h !! l = Some o → ∃ o'', (h ++ [o']) !! l = Some o'' ∧ same_class o o''.
Proof.
  intros H. exists o. split; [|apply same_class_refl].
  by apply lookup_app_l_Some.
Qed.

Lemma preserves_new o : preserves (new o).
Proof.
  intros s. split; simpl; auto using objects_app.
  rewrite length_app. simpl. lia.
Qed.

Lemma preserves_heap_alter names types bits l :
  preserves (heap_alter (obj_set_fields names types bits) l).
Proof.
  intros s. split; simpl; auto; [|by rewrite length_alter].
  intros l' o Ho. destruct (decide (l = l')) as [<-|Hne].
  - eexists. rewrite list_lookup_alter_eq, Ho. simpl.
    eauto using same_class_set_fields.
  - rewrite list_lookup_alter_ne by done. eauto.
Qed.

Lemma grows_insert_tag s key obj :
  _declarations s !! key = None → tag_key key →
  grows s (declarations_setitem key obj s).2.
Proof.
  intros Hnone Htag. split; simpl; auto.
  - by apply insert_subseteq.
  - intros k. destruct (decide (key = k)) as [<-|Hne]; auto.
    rewrite lookup_insert_ne; auto.
Qed.

Lemma preserves_declare_tag key obj : tag_key key → preserves (_declare key obj).
Proof.
  intros Htag s. unfold _declare, bind, declarations_get.
  destruct (_declarations s !! key) eqn:E; simpl.
  - apply grows_refl.
  - by apply grows_insert_tag.
Qed.

(** The cache is written for a node that it does not hold yet. *)
Lemma grows_cache_setitem s i tp :
  _structnode2type s !! i = None → grows s (structnode2type_setitem i tp s).2.
Proof. intros Hnone. split; simpl; auto. by apply insert_subseteq. Qed.

Lemma grows_bind_cache_setitem {B} i tp (k : unit → M B) s :
  _structnode2type s !! i = None → preserves (k tt) →
  grows s (bind (structnode2type_setitem i tp) k s).2.
Proof.
  intros Hnone Hk. eapply grows_trans; [by apply (grows_cache_setitem _ i tp)|].
  apply Hk.
Qed.

Lemma preserves_tp_fldnames tp : preserves (tp_fldnames tp).
Proof.
  destruct tp; try apply preserves_raise. simpl.
  apply preserves_bind; [apply preserves_heap_get|].
  intros [o|]; [apply preserves_lift | apply preserves_raise].
Qed.

Lemma preserves_tp_set_fields tp a b c : preserves (tp_set_fields tp a b c).
Proof.
  destruct tp; try apply preserves_raise. apply preserves_heap_alter.
Qed.

Lemma preserves_get_enum_type type : preserves (_get_enum_type type).
Proof.
  intros s. destruct type; try apply grows_refl.
  unfold _get_enum_type, bind, declarations_get, lift, ret, new; simpl.
  destruct (_declarations s !! _) eqn:E; simpl; [apply grows_refl|].
  destruct values as [enumerators|]; simpl.
  - destruct (enum_values 0 enumerators); simpl; [|apply grows_refl].
    split; simpl; auto using objects_app.
    + by apply insert_subseteq.
    + intros k. destruct (decide ("enum " +:+ py_str name = k)) as [<-|Hne].
      * intros _. right. exists (py_str name). auto.
      * rewrite lookup_insert_ne; auto.
    + rewrite length_app. simpl. lia.
  - split; simpl; auto using objects_app. rewrite length_app. simpl. lia.
Qed.

Create HintDb preserves.
#[local] Hint Resolve preserves_ret preserves_raise preserves_lift
  preserves_declarations_get preserves_structnode2type_get preserves_heap_get
  preserves_next_anonymous preserves_new preserves_heap_alter
  preserves_tp_fldnames preserves_tp_set_fields preserves_get_enum_type
  : preserves.

(** Walks the binds and case distinctions of a method body. *)
Ltac preserves_step :=
  match goal with
  | |- preserves (bind (raise _) _) => apply preserves_bind_raise
  | |- preserves (bind _ _) => apply preserves_bind; [|intros ?]
  | |- preserves (match ?x with _ => _ end) => destruct x
  | |- preserves (if ?b then _ else _) => destruct b
  | |- preserves _ => solve [auto with preserves]
  end.

Lemma keeps_cache_bind {A B} (m : M A) (k : A → M B) :
  keeps_cache m → (∀ a, keeps_cache (k a)) → keeps_cache (bind m k).
Proof.
  intros Hm Hk s. unfold bind. specialize (Hm s).
  destruct (m s) as [[a|e] s1]; simpl in *; auto.
  by rewrite Hk.
Qed.

Lemma keeps_cache_declare key obj : keeps_cache (_declare key obj).
Proof.
  intros s. unfold _declare, bind, declarations_get.
  by destruct (_declarations s !! key).
Qed.

Ltac keeps_cache_step :=
  match goal with
  | |- keeps_cache (bind _ _) => apply keeps_cache_bind; [|intros ?]
  | |- keeps_cache (match ?x with _ => _ end) => destruct x
  | |- keeps_cache (if ?b then _ else _) => destruct b
  | |- keeps_cache (_declare _ _) => apply keeps_cache_declare
  | |- keeps_cache _ => solve [intros ?; reflexivity]
  end.

Lemma bind_grows {A B} (m : M A) (k : A → M B) s :
  preserves m → keeps_cache m →
  (∀ a s1, _structnode2type s1 = _structnode2type s → grows s1 (k a s1).2) →
  grows s (bind m k s).2.
Proof.
  intros Hm Hc Hk. unfold bind. specialize (Hm s). specialize (Hc s).
  destruct (m s) as [[a|e] s1]; simpl in *; auto.
  eapply grows_trans; [exact Hm | by apply Hk].
Qed.

Section ResolverGrows.

Variable self_get_type : node → bool → bool → option string → M ctype.
Hypothesis self_preserves : ∀ n a b c, preserves (self_get_type n a b c).

Lemma preserves_get_arg_types params :
  preserves (get_arg_types self_get_type params).
Proof.
  induction params as [|p params IH]; simpl; repeat preserves_step.
Qed.

Lemma preserves_parse_function_type typenode funcname :
  preserves (parse_function_type self_get_type typenode funcname).
Proof.
  destruct typenode; simpl; repeat preserves_step;
    auto using preserves_get_arg_types.
Qed.

Lemma preserves_struct_fields decls :
  preserves (struct_fields self_get_type decls).
Proof.
  induction decls as [|d decls IH]; simpl; repeat preserves_step; auto.
Qed.

Lemma preserves_get_struct_or_union_type kind type typenode :
  preserves (get_struct_or_union_type self_get_type kind type typenode).
Proof.
  assert (Hnew : ∀ explicit_name name,
    preserves
      (tp <- (if bool_decide (kind = "struct")
              then new (StructType explicit_name None None None)
              else if bool_decide (kind = "union")
              then new (UnionType explicit_name None None None)
              else raise AssertionError) ;;
       match name with
       | Some name => _declare (kind +:+ " " +:+ name) tp
       | None => ret tt
       end ;;;
       ret tp)).
  { intros explicit_name name.
    repeat case_bool_decide; subst; repeat preserves_step.
    all: apply preserves_declare_tag; eexists; eauto. }
  intros s.
  destruct type; try apply grows_refl; simpl.
  all: unfold bind at 1, structnode2type_get at 1; simpl.
  all: destruct (_structnode2type s !! id) eqn:Hmiss; [apply grows_refl|].
  all: apply bind_grows;
    [repeat preserves_step | repeat keeps_cache_step |].
  all: intros [explicit_name tp] s1 Hs1.
  all: apply bind_grows;
    [destruct tp; [auto with preserves | apply Hnew]
    | repeat keeps_cache_step |].
  all: intros tp' s2 Hs2.
  all: apply grows_bind_cache_setitem; [congruence|].
  all: repeat preserves_step; auto using preserves_struct_fields.
Qed.

End ResolverGrows.

(** Every run of the resolver, returning or raising, only extends the state. *)
Lemma preserves_get_type fuel :
  ∀ typenode convert_array_to_pointer force_pointer name,
    preserves (_get_type fuel typenode convert_array_to_pointer force_pointer
                 name).
Proof.
  induction fuel as [|fuel IH]; intros typenode cap fp name; simpl.
  - apply preserves_raise.
  - unfold get_type. repeat preserves_step;
      auto using preserves_get_struct_or_union_type,
                 preserves_parse_function_type.
Qed.

Lemma preserves_get_struct_or_union_type' fuel kind type typenode :
  preserves (_get_struct_or_union_type fuel kind type typenode).
Proof.
  apply preserves_get_struct_or_union_type, preserves_get_type.
Qed.

(** ** The Declaration Table across whole calls *)

Lemma keeps_declarations_bind {A B} (m : M A) (k : A → M B) :
  keeps_declarations m → (∀ a, keeps_declarations (k a)) →
  keeps_declarations (bind m k).
Proof.
  intros Hm Hk s. unfold bind. specialize (Hm s).
  destruct (m s) as [[a|e] s1]; simpl in *; auto.
  trans (_declarations s1); [exact Hm | apply Hk].
Qed.

Lemma preserves_keeps_declarations {A} (m : M A) :
  preserves m → keeps_declarations m.
Proof. intros Hm s. apply Hm. Qed.

Lemma keeps_declarations_declare name obj : keeps_declarations (_declare name obj).
Proof.
  intros s. unfold _declare, bind, declarations_get.
  destruct (_declarations s !! name) eqn:E; simpl; auto.
  by apply insert_subseteq.
Qed.

Ltac keeps_declarations_step :=
  match goal with
  | |- keeps_declarations (bind _ _) =>
      apply keeps_declarations_bind; [|intros ?]
  | |- keeps_declarations (_declare _ _) => apply keeps_declarations_declare
  | |- keeps_declarations (match ?x with _ => _ end) => destruct x
  | |- keeps_declarations (if ?b then _ else _) => destruct b
  | |- keeps_declarations _ =>
      solve [apply preserves_keeps_declarations;
             auto using preserves_get_type,
               preserves_get_struct_or_union_type' with preserves]
  end.

Lemma keeps_declarations_parse_decl fuel decl :
  keeps_declarations (_parse_decl fuel decl).
Proof. destruct decl; simpl; repeat keeps_declarations_step. Qed.

Lemma keeps_declarations_parse_decls fuel ext :
  keeps_declarations (parse_decls fuel ext).
Proof.
  induction ext as [|decl ext IH]; simpl; repeat keeps_declarations_step;
    auto using keeps_declarations_parse_decl.
Qed.

Lemma keeps_declarations_parse cparser_parse fuel csource :
  keeps_declarations (parse cparser_parse fuel csource).
Proof.
  unfold parse. repeat keeps_declarations_step;
    auto using keeps_declarations_parse_decls.
  intros s. reflexivity.
Qed.

Lemma preserves_parse_type cparser_parse fuel cdecl force_pointer :
  preserves (parse_type cparser_parse fuel cdecl force_pointer).
Proof.
  unfold parse_type. apply preserves_bind; [intros s; apply grows_refl|].
  intros ext. apply preserves_bind; [apply preserves_lift|].
  intros typenode. apply preserves_get_type.
Qed.

(** The second loop of [parse] on a list of declarations cut in two. *)
Lemma parse_decls_app fuel pre post s :
  parse_decls fuel (pre ++ post) s =
  match parse_decls fuel pre s with
  | (Ok _, s1) => parse_decls fuel post s1
  | (Raise e, s1) => (Raise e, s1)
  end.
Proof.
  revert s. induction pre as [|decl pre IH]; intros s; simpl; [done|].
  unfold bind at 1 3.
  match goal with |- context [match ?m s with _ => _ end] =>
    destruct (m s) as [[[]|e] s1] end; simpl; auto.
Qed.

Lemma run_calls_keeps_declarations cparser_parse fuel calls s :
  _declarations s ⊆ _declarations (run_calls cparser_parse fuel calls s).
Proof.
  revert s. induction calls as [|c calls IH]; intros s; simpl; [done|].
  trans (_declarations (run_call cparser_parse fuel s c)); [|apply IH].
  destruct c; simpl.
  - apply keeps_declarations_parse.
  - apply preserves_parse_type.
Qed.

Lemma tag_key_not_variable name : ¬ tag_key ("variable " +:+ name).
Proof. intros [n [H|[H|H]]]; discriminate H. Qed.

Lemma tag_key_not_function name : ¬ tag_key ("function " +:+ name).
Proof. intros [n [H|[H|H]]]; discriminate H. Qed.

(** A key that is no tag key is bound after a piece of the resolver exactly
    as it was before. *)
Lemma grows_lookup_other s s' k :
  grows s s' → ¬ tag_key k → _declarations s' !! k = _declarations s !! k.
Proof.
  intros Hg Hk. destruct (_declarations s !! k) as [v|] eqn:E.
  - eapply lookup_weaken; [exact E | apply Hg].
  - destruct (_declarations s' !! k) as [v|] eqn:E'; [|done].
    destruct (grows_new_keys _ _ Hg k) as [[v' Hv']|Ht]; [by eexists| |done].
    congruence.
Qed.

(** ** Running a method on a given state *)

(** Runs the state-passing primitives of a method body on a given state. *)
Ltac run :=
  repeat progress
    (cbv beta iota zeta delta
       [bind ret raise lift rbind declarations_get declarations_setitem
        structnode2type_get structnode2type_setitem next_anonymous new
        heap_get heap_alter _declare tp_fldnames tp_set_fields
        _get_struct_or_union_type get_struct_or_union_type];
     simpl;
     repeat match goal with
       | |- context [bool_decide ?P] =>
           first [ rewrite (bool_decide_eq_true_2 P) by reflexivity
                 | rewrite (bool_decide_eq_false_2 P) by discriminate ]
       end).

Lemma bind_ok_inv {A B} (m : M A) (k : A → M B) s b s' :
  bind m k s = (Ok b, s') →
  ∃ a s1, m s = (Ok a, s1) ∧ k a s1 = (Ok b, s').
Proof.
  unfold bind. destruct (m s) as [[a|e] s1]; [eauto | discriminate].
Qed.

Lemma lift_ok_inv {A} (r : result A) s a s' :
  lift r s = (Ok a, s') → r = Ok a ∧ s' = s.
Proof. by intros [= -> ->]. Qed.

Lemma declare_present name obj old s :
  _declarations s !! name = Some old →
  _declare name obj s
  = (Raise (FFIError ("multiple declarations of " +:+ name)), s).
Proof. intros H. unfold _declare, bind, declarations_get. by rewrite H. Qed.

Lemma get_enum_type_present name values old s :
  _declarations s !! ("enum " +:+ py_str name) = Some old →
  _get_enum_type (Enum name values) s = (Ok old, s).
Proof.
  intros H. unfold _get_enum_type, bind, declarations_get. by rewrite H.
Qed.

Lemma get_struct_or_union_type_miss self_get_type kind type id name decls
    typenode s :
  is_struct_or_union type id name decls →
  _structnode2type s !! id = None →
  get_struct_or_union_type self_get_type kind type typenode s =
  match struct_skeleton kind name typenode s with
  | (Ok tp, s1) =>
      struct_body self_get_type tp name decls
        (structnode2type_setitem id tp s1).2
  | (Raise e, s1) => (Raise e, s1)
  end.
Proof.
  intros [-> | ->] Hmiss.
  all: unfold get_struct_or_union_type.
  all: unfold bind at 1, structnode2type_get at 1; simpl; rewrite Hmiss.
  all: unfold struct_skeleton, struct_body.
  all: destruct name as [name|];
         [destruct (_declarations s !! (kind +:+ " " +:+ name)) eqn:E
         |destruct typenode as [[]|]].
  all: repeat match goal with
         | |- context [match ?x with _ => _ end] => is_var x; destruct x
         end.
  all: run; rewrite ?E; run; try reflexivity.
  all: repeat case_bool_decide; run; rewrite ?E; reflexivity.
Qed.

(** The loop recognizes the entry before it reads anything else of the
    declaration, and stops there: the resolver is never called on it. *)
Lemma struct_fields_dotdotdot self_get_type name names bitsize rest s :
  String.concat "" names = "__dotdotdot__" →
  struct_fields self_get_type (Decl name (IdentifierType names) bitsize :: rest) s
  = (Raise (NameError "xxxx"), s).
Proof.
  intros H. simpl. unfold bind, lift. simpl.
  rewrite bool_decide_eq_true_2 by exact H. reflexivity.
Qed.

Lemma parse_constant_value e n :
  _parse_constant e = Ok n ↔ constant_value e n.
Proof.
  split.
  - revert n. induction e as [type value|op e IH|]; intros n; simpl.
    + by constructor.
    + destruct (decide (op = "-")) as [->|]; [|done].
      destruct (_parse_constant e) as [m|]; simpl; [|done].
      intros [= <-]. constructor. by apply IH.
    + done.
  - induction 1 as [type value n H|e n _ IH]; simpl; [done|].
    by rewrite IH.
Qed.

Lemma struct_fields_bitsizes self_get_type decls s fldnames fldtypes
    fldbitsize s' :
  struct_fields self_get_type decls s
  = (Ok (fldnames, fldtypes, fldbitsize), s') →
  Forall2 field_bitsize decls fldbitsize.
Proof.
  revert s fldnames fldtypes fldbitsize.
  induction decls as [|decl decls IH]; intros s names types bits; simpl.
  - intros [= <- <- <- <-]. constructor.
  - intros H.
    apply bind_ok_inv in H as (decltype & s1 & _ & H).
    apply bind_ok_inv in H as (_ & s2 & _ & H).
    apply bind_ok_inv in H as (declbitsize & s3 & Hbits & H).
    apply lift_ok_inv in Hbits as [Hbits _].
    apply bind_ok_inv in H as (bitsize & s4 & Hsize & H).
    apply lift_ok_inv in Hsize as [Hsize _].
    apply bind_ok_inv in H as (declname & s5 & _ & H).
    apply bind_ok_inv in H as (fldtype & s6 & _ & H).
    apply bind_ok_inv in H as ([[names' types'] bits'] & s7 & Hrest & H).
    simpl in H. injection H as Hn Ht Hb Hs. subst names types bits s'.
    constructor; [|by eapply IH].
    unfold field_bitsize. rewrite Hbits.
    destruct declbitsize as [e|].
    + by apply parse_constant_value.
    + by injection Hsize as <-.
Qed.

(** A field list that holds a [__dotdotdot__] entry never resolves. *)
Lemma struct_fields_dotdotdot_never_ok self_get_type pre name names bitsize
    post s flds s' :
  String.concat "" names = "__dotdotdot__" →
  struct_fields self_get_type
    (pre ++ Decl name (IdentifierType names) bitsize :: post) s
  ≠ (Ok flds, s').
Proof.
  intros Hnames. revert s flds s'.
  induction pre as [|decl pre IH]; intros s flds s'; simpl.
  - change (struct_fields self_get_type
              (Decl name (IdentifierType names) bitsize :: post) s
            ≠ (Ok flds, s')).
    by rewrite struct_fields_dotdotdot.
  - intros H.
    apply bind_ok_inv in H as (decltype & s1 & _ & H).
    apply bind_ok_inv in H as (_ & s2 & _ & H).
    apply bind_ok_inv in H as (declbitsize & s3 & _ & H).
    apply bind_ok_inv in H as (size & s4 & _ & H).
    apply bind_ok_inv in H as (declname & s5 & _ & H).
    apply bind_ok_inv in H as (fldtype & s6 & _ & H).
    apply bind_ok_inv in H as (rest & s7 & Hrest & _).
    by apply IH in Hrest.
Qed.

(** ** The call depth bound is reached on no syntax tree *)

Lemma raise_neq {A B} e :
  @Raise A e ≠ Raise RecursionError → @Raise B e ≠ Raise RecursionError.
Proof. intros H [= ->]. by apply H. Qed.

Lemma terminates_ret {A} (a : A) : terminates (ret a).
Proof. intros s. discriminate. Qed.

Lemma terminates_bind {A B} (m : M A) (k : A → M B) :
  terminates m → (∀ a, terminates (k a)) → terminates (bind m k).
Proof.
  intros Hm Hk s. unfold bind. specialize (Hm s).
  destruct (m s) as [[a|e] s1]; simpl in *;
    [apply Hk | exact (raise_neq e Hm)].
Qed.

Lemma terminates_lift {A} (r : result A) :
  r ≠ Raise RecursionError → terminates (lift r).
Proof. intros H s. exact H. Qed.

Lemma int_digits_terminates acc value :
  int_digits acc value ≠ Raise RecursionError.
Proof.
  revert acc. induction value as [|c value IH]; intros acc; simpl;
    [discriminate|].
  destruct (digit_value c); [apply IH | discriminate].
Qed.

Lemma int_terminates value : int value ≠ Raise RecursionError.
Proof. destruct value; [discriminate | apply int_digits_terminates]. Qed.

Lemma terminates_bind_lift {A B} (r : result A) (k : A → M B) :
  r ≠ Raise RecursionError → (∀ a, r = Ok a → terminates (k a)) →
  terminates (bind (lift r) k).
Proof.
  intros Hr Hk s. unfold bind, lift. destruct r as [a|e]; simpl;
    [by apply Hk | exact (raise_neq e Hr)].
Qed.

Lemma parse_constant_terminates e : _parse_constant e ≠ Raise RecursionError.
Proof.
  induction e as [type value|op e IH|]; simpl.
  - apply int_terminates.
  - destruct (decide (op = "-")); [|discriminate].
    destruct (_parse_constant e) as [n|err]; simpl; [discriminate | exact IH].
  - discriminate.
Qed.

Lemma enum_values_terminates next enumerators :
  enum_values next enumerators ≠ Raise RecursionError.
Proof.
  revert next. induction enumerators as [|[name [e|]] rest IH]; intros next;
    simpl; try discriminate.
  - pose proof (parse_constant_terminates e) as He.
    destruct (_parse_constant e) as [n|err]; simpl;
      [|exact (raise_neq err He)].
    specialize (IH (n + 1)).
    destruct (enum_values (n + 1) rest); simpl; [discriminate | exact IH].
  - specialize (IH (next + 1)).
    destruct (enum_values (next + 1) rest); simpl; [discriminate | exact IH].
Qed.

Lemma attr_type_terminates n : attr_type n ≠ Raise RecursionError.
Proof. by destruct n. Qed.

Lemma attr_name_terminates n : attr_name n ≠ Raise RecursionError.
Proof. by destruct n. Qed.

Lemma attr_bitsize_terminates n : attr_bitsize n ≠ Raise RecursionError.
Proof. by destruct n. Qed.

Lemma is_identifier_param_terminates names p :
  is_identifier_param names p ≠ Raise RecursionError.
Proof.
  unfold is_identifier_param. destruct p; simpl; try done.
  all: by repeat match goal with
         | |- context [match ?x with _ => _ end] => destruct x
         end.
Qed.

Lemma reduce_synonyms_terminates names :
  reduce_synonyms names ≠ Raise RecursionError.
Proof.
  unfold reduce_synonyms.
  by repeat match goal with
     | |- context [match ?x with _ => _ end] => destruct x
     end.
Qed.

Lemma terminates_get_enum_type type : terminates (_get_enum_type type).
Proof.
  intros s. destruct type; try discriminate.
  unfold _get_enum_type, bind, declarations_get, lift, new. simpl.
  destruct (_declarations s !! _); [discriminate|].
  destruct values as [enumerators|]; [|discriminate]. simpl.
  pose proof (enum_values_terminates 0 enumerators) as Hv.
  destruct (enum_values 0 enumerators) as [vs|e]; simpl;
    [discriminate | exact (raise_neq e Hv)].
Qed.

Lemma terminates_declare name obj : terminates (_declare name obj).
Proof.
  intros s. unfold _declare, bind, declarations_get.
  destruct (_declarations s !! name); discriminate.
Qed.

Lemma terminates_tp_fldnames tp : terminates (tp_fldnames tp).
Proof.
  intros s. destruct tp; try discriminate. unfold tp_fldnames, bind, heap_get.
  simpl. destruct (heap s !! l) as [[]|]; discriminate.
Qed.

Lemma terminates_tp_set_fields tp a b c : terminates (tp_set_fields tp a b c).
Proof. intros s. destruct tp; discriminate. Qed.

(** The type of a declaration is nested one level deeper. *)
Lemma attr_type_depth n t : attr_type n = Ok t → (node_depth t < node_depth n)%nat.
Proof. destruct n; intros [= <-]; simpl; lia. Qed.

Lemma max_depth_removelast l : (max_depth (removelast l) ≤ max_depth l)%nat.
Proof.
  induction l as [|p [|q l] IH]; unfold max_depth in *; simpl in *; lia.
Qed.

Create HintDb terminates.
#[local] Hint Resolve terminates_ret terminates_get_enum_type
  terminates_declare terminates_tp_fldnames terminates_tp_set_fields
  : terminates.

Ltac terminates_step :=
  match goal with
  | |- terminates (bind _ _) => apply terminates_bind; [|intros ?]
  | |- terminates (lift _) =>
      apply terminates_lift;
      first [ apply attr_type_terminates | apply attr_name_terminates
            | apply attr_bitsize_terminates | apply parse_constant_terminates
            | apply reduce_synonyms_terminates
            | apply is_identifier_param_terminates | discriminate ]
  | |- terminates (match ?x with _ => _ end) => destruct x
  | |- terminates (if ?b then _ else _) => destruct b
  | |- terminates _ => solve [auto with terminates]
  | |- terminates _ => solve [intros ?; discriminate]
  end.

Section ResolverTerminates.

Variable self_get_type : node → bool → bool → option string → M ctype.
Variable bound : nat.
Hypothesis self_terminates :
  ∀ n convert name, (node_depth n < bound)%nat →
    terminates (self_get_type n convert false name).

Lemma terminates_get_arg_types params :
  (max_depth params ≤ bound)%nat →
  terminates (get_arg_types self_get_type params).
Proof.
  induction params as [|p params IH]; intros Hd; simpl;
    [apply terminates_ret|].
  unfold max_depth in *. simpl in Hd.
  apply terminates_bind_lift; [apply attr_type_terminates|].
  intros t Ht. apply attr_type_depth in Ht.
  apply terminates_bind; [apply self_terminates; lia|]. intros arg.
  apply terminates_bind; [apply IH; lia|]. intros args.
  apply terminates_ret.
Qed.

Lemma terminates_struct_fields decls :
  (max_depth decls ≤ bound)%nat →
  terminates (struct_fields self_get_type decls).
Proof.
  induction decls as [|p decls IH]; intros Hd; simpl;
    [apply terminates_ret|].
  unfold max_depth in *. simpl in Hd.
  apply terminates_bind_lift; [apply attr_type_terminates|].
  intros t Ht. apply attr_type_depth in Ht.
  apply terminates_bind; [repeat terminates_step|]. intros _.
  apply terminates_bind; [repeat terminates_step|]. intros declbitsize.
  apply terminates_bind.
  { apply terminates_lift. destruct declbitsize;
      [apply parse_constant_terminates | discriminate]. }
  intros bitsize.
  apply terminates_bind; [repeat terminates_step|]. intros declname.
  apply terminates_bind; [apply self_terminates; lia|]. intros fldtype.
  apply terminates_bind; [apply IH; lia|]. intros [[names types] bits].
  apply terminates_ret.
Qed.

Lemma terminates_parse_function_type typenode funcname :
  (node_depth typenode ≤ bound)%nat →
  terminates (parse_function_type self_get_type typenode funcname).
Proof.
  destruct typenode as [| | | | | | |args result_node| | | |];
    try (intros _ s; discriminate).
  simpl. intros Hd.
  set (params := match args with Some params => params | None => [] end).
  assert (Hparams : (max_depth params < bound)%nat).
  { destruct args; unfold params, max_depth in *; simpl in *; lia. }
  assert (Hres : (node_depth result_node < bound)%nat) by lia.
  clearbody params. clear Hd.
  apply terminates_bind.
  { apply terminates_lift. destruct (last params);
      [apply is_identifier_param_terminates | discriminate]. }
  intros ellipsis.
  set (params' := if ellipsis then removelast params else params).
  assert (Hpop : (max_depth params' < bound)%nat).
  { unfold params'. destruct ellipsis; [|done].
    pose proof (max_depth_removelast params). lia. }
  clearbody params'.
  apply terminates_bind_lift.
  { destruct params' as [|p [|q l]]; try discriminate.
    pose proof (is_identifier_param_terminates ["void"] p) as Hv.
    destruct (is_identifier_param ["void"] p) as [isvoid|e]; simpl;
      [discriminate | exact (raise_neq e Hv)]. }
  intros params'' Heq.
  assert (Hvoid : (max_depth params'' < bound)%nat).
  { destruct params' as [|p [|q l]]; try (injection Heq as <-; done).
    destruct (is_identifier_param ["void"] p) as [[]|e]; simpl in Heq;
      try discriminate; injection Heq as <-; [|done].
    unfold max_depth in *. simpl in *. lia. }
  apply terminates_bind; [apply terminates_get_arg_types; lia|].
  intros args'.
  apply terminates_bind; [by apply self_terminates|]. intros result.
  apply terminates_ret.
Qed.

Lemma terminates_get_struct_or_union_type kind type typenode :
  (node_depth type ≤ S bound)%nat →
  terminates (get_struct_or_union_type self_get_type kind type typenode).
Proof.
  destruct type; try (intros _ s; discriminate); simpl; intros Hd.
  all: repeat terminates_step.
  all: apply terminates_struct_fields; unfold max_depth; lia.
Qed.

End ResolverTerminates.

(** With a call depth bound above the nesting depth of the node, the
    resolver does not raise [RecursionError]. *)
Lemma get_type_terminates fuel :
  ∀ typenode convert_array_to_pointer (force_pointer : bool) name,
    (node_depth typenode + (if force_pointer then 1 else 0) < fuel)%nat →
    terminates (_get_type fuel typenode convert_array_to_pointer
                  force_pointer name).
Proof.
  induction fuel as [|fuel IH]; intros typenode cap fp name Hd; [lia|].
  assert (Hself : ∀ n convert name, (node_depth n < fuel)%nat →
            terminates (_get_type fuel n convert false name)).
  { intros n convert name' Hn. apply IH. lia. }
  simpl. unfold get_type.
  apply terminates_bind; [repeat terminates_step|]. intros typedef.
  destruct typedef as [type|]; [repeat terminates_step|].
  destruct typenode; simpl in Hd.
  all: repeat match goal with
         | |- terminates (if ?b then _ else _) => destruct b; simpl in Hd
         | |- terminates (_get_type _ _ _ false _) => apply Hself; simpl; lia
         | |- terminates (bind _ _) => apply terminates_bind; [|intros ?]
         | |- terminates (ret _) => apply terminates_ret
         end.
  all: try (apply terminates_lift; destruct dim as [e|]; [|discriminate];
            pose proof (parse_constant_terminates e) as He;
            destruct (_parse_constant e) as [n|err]; simpl;
            [discriminate | exact (raise_neq err He)]).
  all: try solve [intros ?; discriminate].
  - (* TypeDecl *)
    destruct typenode; repeat terminates_step.
    all: apply (terminates_get_struct_or_union_type _ fuel Hself); simpl in *; lia.
  - (* FuncDecl *)
    apply (terminates_parse_function_type _ fuel Hself). simpl in *. lia.
Qed.

(** ** The result does not depend on the call depth bound *)

Lemma bind_ext {A B} (m1 m2 : M A) (k1 k2 : A → M B) s :
  m1 s = m2 s → (∀ a s1, k1 a s1 = k2 a s1) → bind m1 k1 s = bind m2 k2 s.
Proof.
  intros Hm Hk. unfold bind. rewrite Hm.
  destruct (m2 s) as [[a|e] s1]; auto.
Qed.

Lemma bind_lift_ext {A B} (r : result A) (k1 k2 : A → M B) s :
  (∀ a s1, r = Ok a → k1 a s1 = k2 a s1) →
  bind (lift r) k1 s = bind (lift r) k2 s.
Proof. intros Hk. unfold bind, lift. destruct r; auto. Qed.

Section ResolverAgrees.

Variables g1 g2 : node → bool → bool → option string → M ctype.
Variable bound : nat.
Hypothesis agree :
  ∀ n convert name s, (node_depth n < bound)%nat →
    g1 n convert false name s = g2 n convert false name s.

Lemma get_arg_types_agree params s :
  (max_depth params ≤ bound)%nat →
  get_arg_types g1 params s = get_arg_types g2 params s.
Proof.
  revert s. induction params as [|p params IH]; intros s Hd; simpl; [done|].
  unfold max_depth in *. simpl in Hd.
  apply bind_lift_ext. intros t s1 Ht. apply attr_type_depth in Ht.
  apply bind_ext; [apply agree; lia|]. intros arg s2.
  apply bind_ext; [apply IH; lia|]. done.
Qed.

Lemma struct_fields_agree decls s :
  (max_depth decls ≤ bound)%nat →
  struct_fields g1 decls s = struct_fields g2 decls s.
Proof.
  revert s. induction decls as [|p decls IH]; intros s Hd; simpl; [done|].
  unfold max_depth in *. simpl in Hd.
  apply bind_lift_ext. intros t s1 Ht. apply attr_type_depth in Ht.
  apply bind_ext; [done|]. intros _ s2.
  apply bind_ext; [done|]. intros declbitsize s3.
  apply bind_ext; [done|]. intros bitsize s4.
  apply bind_ext; [done|]. intros declname s5.
  apply bind_ext; [apply agree; lia|]. intros fldtype s6.
  apply bind_ext; [apply IH; lia|]. done.
Qed.

Lemma parse_function_type_agree typenode funcname s :
  (node_depth typenode ≤ bound)%nat →
  parse_function_type g1 typenode funcname s
  = parse_function_type g2 typenode funcname s.
Proof.
  destruct typenode as [| | | | | | |args result_node| | | |]; try done.
  simpl. intros Hd.
  set (params := match args with Some params => params | None => [] end).
  assert (Hparams : (max_depth params < bound)%nat).
  { destruct args; unfold params, max_depth in *; simpl in *; lia. }
  assert (Hres : (node_depth result_node < bound)%nat) by lia.
  clearbody params. clear Hd.
  apply bind_ext; [done|]. intros ellipsis s1.
  set (params' := if ellipsis then removelast params else params).
  assert (Hpop : (max_depth params' < bound)%nat).
  { unfold params'. destruct ellipsis; [|done].
    pose proof (max_depth_removelast params). lia. }
  clearbody params'.
  apply bind_lift_ext. intros params'' s2 Heq.
  assert (Hvoid : (max_depth params'' < bound)%nat).
  { destruct params' as [|p [|q l]]; try (injection Heq as <-; done).
    destruct (is_identifier_param ["void"] p) as [[]|e]; simpl in Heq;
      try discriminate; injection Heq as <-; [|done].
    unfold max_depth in *. simpl in *. lia. }
  apply bind_ext; [apply get_arg_types_agree; lia|]. intros args' s3.
  apply bind_ext; [by apply agree|]. done.
Qed.

Lemma get_struct_or_union_type_agree kind type typenode s :
  (node_depth type ≤ S bound)%nat →
  get_struct_or_union_type g1 kind type typenode s
  = get_struct_or_union_type g2 kind type typenode s.
Proof.
  destruct type; try done; simpl; intros Hd.
  all: apply bind_ext; [done|]; intros [cached|] s1; [done|].
  all: apply bind_ext; [done|]; intros [explicit_name tp] s2.
  all: apply bind_ext; [done|]; intros tp' s3.
  all: apply bind_ext; [done|]; intros _ s4.
  all: destruct decls as [decls|]; [|done].
  all: apply bind_ext; [done|]; intros [fldnames|] s5; [done|].
  all: apply bind_ext; [|done].
  all: apply struct_fields_agree; unfold max_depth; lia.
Qed.

Lemma get_type_agree typenode convert_array_to_pointer (force_pointer : bool)
    name s :
  (node_depth typenode + (if force_pointer then 1 else 0) ≤ bound)%nat →
  get_type g1 typenode convert_array_to_pointer force_pointer name s
  = get_type g2 typenode convert_array_to_pointer force_pointer name s.
Proof.
  intros Hd. unfold get_type.
  apply bind_ext; [done|]. intros [type|] s1; [done|].
  destruct typenode; simpl in Hd.
  all: repeat match goal with
         | |- (if ?b then _ else _) _ = (if ?b then _ else _) _ =>
             destruct b; simpl in Hd
         | |- bind (g1 _ _ _ _) _ _ = bind (g2 _ _ _ _) _ _ =>
             apply bind_ext; [apply agree; simpl; lia|]; intros ? ?
         | |- bind (lift _) _ _ = bind (lift _) _ _ =>
             apply bind_ext; [done|]; intros ? ?
         end; try done.
  - destruct typenode; try done.
    all: apply get_struct_or_union_type_agree; simpl in *; lia.
  - apply parse_function_type_agree. simpl in *. lia.
Qed.

End ResolverAgrees.

(** Above the nesting depth of the node, every call depth bound gives the
    same outcome and the same final state. *)
Lemma get_type_fuel_irrelevant fuel1 :
  ∀ fuel2 typenode convert_array_to_pointer (force_pointer : bool) name s,
    (node_depth typenode + (if force_pointer then 1 else 0) < fuel1)%nat →
    (node_depth typenode + (if force_pointer then 1 else 0) < fuel2)%nat →
    _get_type fuel1 typenode convert_array_to_pointer force_pointer name s
    = _get_type fuel2 typenode convert_array_to_pointer force_pointer name s.
Proof.
  induction fuel1 as [|fuel1 IH]; intros [|fuel2] typenode cap fp name s H1 H2;
    try lia.
  simpl. apply (get_type_agree _ _ (Nat.min fuel1 fuel2)); [|lia].
  intros n convert name' s' Hn. apply IH; lia.
Qed.

(** * The claims *)

(** ** C1: a failing [parse] is not rolled back *)

Lemma preserves_fails_clean {A} (m : M A) : preserves m → fails_clean m.
Proof. intros H s e _. apply H. Qed.

Lemma fails_clean_bind {A B} (m : M A) (k : A → M B) :
  preserves m → (∀ a, fails_clean (k a)) → fails_clean (bind m k).
Proof.
  intros Hm Hk s e. unfold bind. specialize (Hm s).
  destruct (m s) as [[a|e'] s1]; simpl in *; [|done].
  intros He. eapply grows_trans; [exact Hm | by eapply Hk].
Qed.

(** [_declare] raises without a write. *)
Lemma fails_clean_declare name obj : fails_clean (_declare name obj).
Proof.
  intros s e. unfold _declare, bind, declarations_get.
  destruct (_declarations s !! name); simpl; [|done].
  intros _. apply grows_refl.
Qed.

Ltac fails_clean_step :=
  match goal with
  | |- fails_clean (_declare _ _) => apply fails_clean_declare
  | |- fails_clean (bind _ _) =>
      apply fails_clean_bind;
        [repeat preserves_step;
         auto using preserves_get_type, preserves_get_struct_or_union_type'
        |intros ?]
  | |- fails_clean (match ?x with _ => _ end) => destruct x
  | |- fails_clean (if ?b then _ else _) => destruct b
  | |- fails_clean _ =>
      apply preserves_fails_clean; solve [auto with preserves]
  end.

Lemma fails_clean_parse_decl fuel decl : fails_clean (_parse_decl fuel decl).
Proof. unfold _parse_decl. repeat fails_clean_step. Qed.

Lemma fails_clean_then_ret {A} (m : M A) :
  fails_clean m → fails_clean (m ;;; ret tt).
Proof.
  intros Hm s e. unfold bind. specialize (Hm s).
  destruct (m s) as [[a|e'] s1]; simpl in *; [done|].
  intros _. by apply (Hm e').
Qed.

(** Processing one top-level declaration, as the second loop of [parse]
    does. *)
Lemma fails_clean_parse_decls_one fuel decl :
  fails_clean (parse_decls fuel [decl]).
Proof.
  simpl. apply fails_clean_then_ret.
  destruct decl; try apply fails_clean_parse_decl; repeat fails_clean_step.
Qed.

(** A run of the second loop of [parse] that raises has processed the
    declarations in front of one of them, and raised in that one. *)
Lemma parse_decls_raise_inv fuel ext s e s' :
  parse_decls fuel ext s = (Raise e, s') →
  ∃ pre decl post s1,
    ext = pre ++ decl :: post
    ∧ parse_decls fuel pre s = (Ok tt, s1)
    ∧ parse_decls fuel [decl] s1 = (Raise e, s').
Proof.
  revert s. induction ext as [|decl rest IH]; intros s; [done|].
  change (decl :: rest) with ([decl] ++ rest). rewrite parse_decls_app.
  destruct (parse_decls fuel [decl] s) as [[[]|e0] s0] eqn:Hdecl.
  - intros Hrest. apply IH in Hrest as (pre & d & post & s1 & -> & Hpre & Hd).
    exists (decl :: pre), d, post, s1. split; [done|]. split; [|done].
    change (decl :: pre) with ([decl] ++ pre).
    by rewrite parse_decls_app, Hdecl.
  - intros [= <- <-]. by exists [], decl, rest, s.
Qed.

(** C1, as stated, fails: [parse] on [int x; int y[n];] raises at the second
    declaration, and the name [variable x] registered by the first one is
    visible afterwards although it was not before the call. *)
Lemma parse_error_leaves_new_name :
  let r := parse Examples.int_x_then_y 2 "int x; int y[n];" init in
  r.1 = Raise (FFIError
          "unsupported non-constant or not immediately constant expression")
  ∧ _declarations init !! "variable x" = None
  ∧ _declarations r.2 !! "variable x" = Some (PrimitiveType "int").
Proof. vm_compute. auto. Qed.

(** C1, amended: for every call of [parse], returning or raising, every
    qualified name visible before the call stays visible and bound to the
    same type object.  A call that raises is not rolled back, and what it
    leaves is bounded.  Either it raises before a declaration is processed,
    and the parser is as before the call; or it raises in one top-level
    declaration: the declarations in front of that one have been processed
    as a list of their own that returns, all they registered is still
    there, and the declaration that raises adds no typedef, function or
    variable: the table differs from the one they left in tag keys at most
    (the struct, union and enum tags that the declaration registered before
    it raised).  The declarations behind it are not processed. *)
Theorem failing_parse_keeps_what_was_processed :
  (∀ cparser_parse fuel csource s,
     _declarations s ⊆ _declarations (parse cparser_parse fuel csource s).2)
  ∧ (∀ cparser_parse fuel csource s e s',
       parse cparser_parse fuel csource s = (Raise e, s') →
       s' = s
       ∨ ∃ ext pre decl post s1,
           cparser_parse (preprocess (_declarations s) csource) = Ok ext
           ∧ skip_to_dotdotdot ext = Ok (pre ++ decl :: post)
           ∧ parse_decls fuel pre s = (Ok tt, s1)
           ∧ parse_decls fuel [decl] s1 = (Raise e, s')
           ∧ _declarations s1 ⊆ _declarations s'
           ∧ ∀ k, ¬ tag_key k →
                  _declarations s' !! k = _declarations s1 !! k).
Proof.
  split; [intros; apply keeps_declarations_parse|].
  intros cparser_parse fuel csource s e s'. unfold parse, bind, _parse, lift.
  destruct (cparser_parse (preprocess (_declarations s) csource))
    as [ext|e0]; [|intros [= <- <-]; by left].
  destruct (skip_to_dotdotdot ext) as [iterator|e0] eqn:Hskip;
    [|intros [= <- <-]; by left].
  intros Hraise. right.
  apply parse_decls_raise_inv in Hraise
    as (pre & decl & post & s1 & -> & Hpre & Hdecl).
  exists ext, pre, decl, post, s1. do 4 (split; [done|]).
  pose proof (keeps_declarations_parse_decls fuel [decl] s1) as Hkeep.
  pose proof (fails_clean_parse_decls_one fuel decl s1 e) as Hclean.
  rewrite Hdecl in Hkeep, Hclean. simpl in *. split; [done|].
  intros k Hk. by apply grows_lookup_other; [apply Hclean|].
Qed.

(** [int x; int y[n];] raises in the second declaration: [int x;] has been
    processed, and [variable y] is not registered. *)
Lemma failing_parse_keeps_what_was_processed_witness :
  let s' := (parse Examples.int_x_then_y 2 "int x; int y[n];" init).2 in
  _declarations s' !! "variable x" = Some (PrimitiveType "int")
  ∧ _declarations s' !! "variable y" = None.
Proof.
  intros s'.
  destruct (proj2 failing_parse_keeps_what_was_processed
              Examples.int_x_then_y 2%nat "int x; int y[n];" init
              (FFIError
                 "unsupported non-constant or not immediately constant expression")
              s')
    as [Hsame|(ext & pre & decl & post & s1 & Hext & Hskip & Hpre & _ & _ & H)].
  - vm_compute. reflexivity.
  - vm_compute in Hsame. discriminate Hsame.
  - vm_compute in Hext. injection Hext as <-.
    vm_compute in Hskip.
    destruct pre as [|d0 [|d1 pre]];
      [|injection Hskip as <- <- <-|destruct pre; discriminate Hskip].
    + injection Hskip as <- <-. vm_compute in Hpre. injection Hpre as <-.
      vm_compute. done.
    + vm_compute in Hpre. injection Hpre as <-.
      rewrite (H "variable x"), (H "variable y")
        by apply tag_key_not_variable.
      vm_compute. done.
Defined.

(** ** C2: an array typedef in parameter position *)

(** C2: when the identifier is a typedef of an array type, [_get_type] with
    [convert_array_to_pointer] returns [type.item], the pointer to the
    element of the array, whatever [force_pointer] is; it changes nothing.
    Without [convert_array_to_pointer] it returns the array type itself. *)
Theorem typedef_array_decays_to_pointer fuel declname ident element length
    force_pointer name s :
  _declarations s !! ("typedef " +:+ ident) = Some (ArrayType element length) →
  _get_type (S fuel) (TypeDecl declname (IdentifierType [ident]))
    true force_pointer name s
  = (Ok (PointerType element), s)
  ∧ _get_type (S fuel) (TypeDecl declname (IdentifierType [ident]))
      false force_pointer name s
    = (Ok (ArrayType element length), s).
Proof.
  intros H. split; simpl; unfold get_type, bind, declarations_get;
    by rewrite H.
Qed.

(** After [typedef int arr[5]; void f(arr a);] the parameter of [f] is a
    pointer to [int], and resolving [arr] again as a parameter gives the
    same. *)
Lemma typedef_array_decays_to_pointer_witness :
  _declarations C2_example.after !! "function f"
  = Some (FunctionType [PointerType (PrimitiveType "int")] void_type false)
  ∧ _get_type 1 (TypeDecl (Some "a") (IdentifierType ["arr"]))
      true false None C2_example.after
    = (Ok (PointerType (PrimitiveType "int")), C2_example.after).
Proof.
  split; [vm_compute; reflexivity|].
  apply (typedef_array_decays_to_pointer 0 (Some "a") "arr"
           (PrimitiveType "int") (Some 5) false None C2_example.after).
  vm_compute. reflexivity.
Defined.

(** ** C3: the identity cache is written before the fields are resolved *)

(** [struct Node { struct Node *next; }], for any tag and field name, on a
    parser that knows neither the tag nor the two nodes: the mention inside
    the field list finds the object that the outer node has just registered
    under [struct Node]. *)
Lemma self_reference_resolves fuel outer inner tag field typenode s :
  _structnode2type s !! outer = None →
  _structnode2type s !! inner = None →
  _declarations s !! ("struct " +:+ tag) = None →
  let r := _get_struct_or_union_type (S (S fuel)) "struct"
             (C3_example.node_struct outer inner tag field) typenode s in
  let l := List.length (heap s) in
  r.1 = Ok (Obj l)
  ∧ heap r.2 !! l
    = Some (StructType tag (Some [Some field]) (Some [PointerType (Obj l)])
              (Some [-1]))
  ∧ _declarations r.2 !! ("struct " +:+ tag) = Some (Obj l).
Proof.
  intros Houter Hinner Hnone r l. unfold r, C3_example.node_struct.
  change ("struct " +:+ tag) with ("struct" +:+ " " +:+ tag) in *.
  run. rewrite Houter. run. rewrite Hnone. run. rewrite Hnone. run.
  rewrite lookup_app_r, Nat.sub_diag by lia. run.
  unfold get_type. run.
  destruct (decide (outer = inner)) as [<-|Hne].
  - rewrite lookup_insert_eq. run.
    rewrite alter_app_r_alt, Nat.sub_diag by lia. simpl.
    rewrite lookup_app_r, Nat.sub_diag by lia. simpl.
    rewrite lookup_insert_eq. done.
  - rewrite lookup_insert_ne, Hinner by done. run.
    rewrite lookup_insert_eq. run.
    rewrite alter_app_r_alt, Nat.sub_diag by lia. simpl.
    rewrite lookup_app_r, Nat.sub_diag by lia. simpl.
    rewrite lookup_insert_eq. done.
Qed.

(** C3: on a struct or union node that the identity cache does not hold
    yet, either the call fails before it looks at the field list, with an
    outcome that does not depend on the resolver, or the field list is
    processed by [struct_body] from a state whose identity cache binds the
    node to the type object, whatever the resolver of the field types is.
    For [struct Node { struct Node *next; }] resolution returns (given a call
    depth of two) the new object, whose one field type is a pointer to that
    very object.  Resolution of an aggregate ends on every node: above the
    nesting depth of the node the call depth bound is not reached. *)
Theorem struct_recorded_before_fields :
  (∀ kind type id name decls typenode s,
     is_struct_or_union type id name decls →
     _structnode2type s !! id = None →
     (∃ tp s1,
        _structnode2type s1 !! id = Some tp
        ∧ ∀ self_get_type,
            get_struct_or_union_type self_get_type kind type typenode s
            = struct_body self_get_type tp name decls s1)
     ∨ (∃ e s1,
          ∀ self_get_type,
            get_struct_or_union_type self_get_type kind type typenode s
            = (Raise e, s1)))
  ∧ (∀ fuel outer inner tag field typenode s,
       _structnode2type s !! outer = None →
       _structnode2type s !! inner = None →
       _declarations s !! ("struct " +:+ tag) = None →
       let r := _get_struct_or_union_type (S (S fuel)) "struct"
                  (C3_example.node_struct outer inner tag field) typenode s in
       let l := List.length (heap s) in
       r.1 = Ok (Obj l)
       ∧ heap r.2 !! l
         = Some (StructType tag (Some [Some field])
                   (Some [PointerType (Obj l)]) (Some [-1]))
       ∧ _declarations r.2 !! ("struct " +:+ tag) = Some (Obj l))
  ∧ (∀ fuel kind type typenode s,
       (node_depth type ≤ S fuel)%nat →
       (_get_struct_or_union_type fuel kind type typenode s).1
       ≠ Raise RecursionError).
Proof.
  split; [|split; [apply self_reference_resolves|]].
  - intros kind type id name decls typenode s Htype Hmiss.
    destruct (struct_skeleton kind name typenode s) as [[tp|e] s1] eqn:Hskel.
    + left. exists tp, (structnode2type_setitem id tp s1).2. split.
      * simpl. apply lookup_insert_eq.
      * intros g.
        rewrite (get_struct_or_union_type_miss g kind type id name decls)
          by done.
        by rewrite Hskel.
    + right. exists e, s1. intros g.
      rewrite (get_struct_or_union_type_miss g kind type id name decls)
        by done.
      by rewrite Hskel.
  - intros fuel kind type typenode s Hd.
    apply (terminates_get_struct_or_union_type (_get_type fuel) fuel);
      [|done].
    intros n convert name Hn. apply get_type_terminates. lia.
Qed.

Lemma struct_recorded_before_fields_witness :
  let type := C3_example.node_struct 1 2 "Node" "next" in
  let r := _get_struct_or_union_type 4 "struct" type None init in
  (r.1 = Ok (Obj 0)
   ∧ heap r.2 !! 0%nat
     = Some (StructType "Node" (Some [Some "next"])
               (Some [PointerType (Obj 0)]) (Some [-1])))
  ∧ r.1 ≠ Raise RecursionError
  ∧ ((∃ tp s1,
        _structnode2type s1 !! 1%nat = Some tp
        ∧ ∀ self_get_type,
            get_struct_or_union_type self_get_type "struct" type None init
            = struct_body self_get_type tp (Some "Node")
                (Some [Decl (Some "next")
                         (PtrDecl (TypeDecl (Some "next")
                                     (Struct 2 (Some "Node") None))) None])
                s1)
     ∨ (∃ e s1,
          ∀ self_get_type,
            get_struct_or_union_type self_get_type "struct" type None init
            = (Raise e, s1))).
Proof.
  destruct struct_recorded_before_fields as (HA & HB & HC).
  split; [|split].
  - destruct (HB 2%nat 1%nat 2%nat "Node" "next" None init) as (H1 & H2 & _);
      [reflexivity | reflexivity | reflexivity |].
    split; [exact H1 | exact H2].
  - apply (HC 4%nat). vm_compute. lia.
  - apply HA; [left; reflexivity | reflexivity].
Defined.

(** ** C4: a qualified name is inserted at most once *)

(** C4, as stated, fails for the enum evaluator: a second definition of a
    registered enum tag does not raise; [parse] on
    [enum Color { RED }; enum Color { BLUE };] returns, and [enum Color] is
    still the first definition. *)
Lemma enum_redefinition_does_not_fail :
  let r := parse C4_example.front_end 1 C4_example.csource init in
  r.1 = Ok tt
  ∧ _declarations r.2 !! "enum Color" = Some (Obj 0)
  ∧ heap r.2 = [EnumType (Some "Color") ["RED"] [0]]
  ∧ _get_enum_type C4_example.color_again C4_example.after_color
    = (Ok (Obj 0), C4_example.after_color).
Proof. vm_compute. auto. Qed.

(** C4, amended: over any sequence of calls of [parse] and [parse_type] no
    entry of the Declaration Table is ever removed or rebound, so a qualified
    name is inserted at most once; [_declare] on a name that is present
    raises [FFIError] (multiple declarations) and leaves the state as it is;
    the enum evaluator, which writes the table directly, does not raise on a
    key that is present: it returns the entry and changes nothing, so that
    its write is reached for an absent key only, and in every case the
    entries present before are kept. *)
Theorem declarations_inserted_at_most_once :
  (∀ cparser_parse fuel calls s,
     _declarations s ⊆ _declarations (run_calls cparser_parse fuel calls s))
  ∧ (∀ name obj old s,
       _declarations s !! name = Some old →
       _declare name obj s
       = (Raise (FFIError ("multiple declarations of " +:+ name)), s))
  ∧ (∀ name values old s,
       _declarations s !! ("enum " +:+ py_str name) = Some old →
       _get_enum_type (Enum name values) s = (Ok old, s))
  ∧ (∀ type s, _declarations s ⊆ _declarations (_get_enum_type type s).2).
Proof.
  split; [|split; [|split]].
  - apply run_calls_keeps_declarations.
  - apply declare_present.
  - apply get_enum_type_present.
  - intros. apply preserves_get_enum_type.
Qed.

Lemma declarations_inserted_at_most_once_witness :
  (_declarations C4_example.after_x !! "variable x"
   = Some (PrimitiveType "int")
   ∧ _declare "variable x" void_type C4_example.after_x
     = (Raise (FFIError "multiple declarations of variable x"),
        C4_example.after_x))
  ∧ (_declarations C4_example.after_color !! "enum Color" = Some (Obj 0)
     ∧ _get_enum_type
         (Enum (Some "Color") (Some [Enumerator "BLUE" None]))
         C4_example.after_color
       = (Ok (Obj 0), C4_example.after_color)).
Proof.
  destruct declarations_inserted_at_most_once as (_ & H1 & H2 & _).
  split; (split; [vm_compute; reflexivity|]).
  - apply (H1 "variable x" void_type (PrimitiveType "int")).
    vm_compute. reflexivity.
  - apply (H2 (Some "Color") (Some [Enumerator "BLUE" None]) (Obj 0)).
    vm_compute. reflexivity.
Defined.

(** ** C5: a second field list for the same tag *)

(** C5: when the tag is registered with an aggregate whose fields are set,
    resolving another node (one the identity cache does not hold) of that tag
    with a field list raises [CDefError] (duplicate declaration), and the
    store, hence the field names, types and bit sizes of the aggregate, and
    the Declaration Table are as before the call. *)
Theorem duplicate_field_list_rejected fuel kind id name decls typenode l o
    fldnames s :
  _structnode2type s !! id = None →
  _declarations s !! (kind +:+ " " +:+ name) = Some (Obj l) →
  heap s !! l = Some o →
  obj_fldnames o = Ok (Some fldnames) →
  ∀ type, type = Struct id (Some name) (Some decls)
          ∨ type = Union id (Some name) (Some decls) →
    let r := _get_struct_or_union_type fuel kind type typenode s in
    r.1 = Raise (CDefError ("duplicate declaration of struct " +:+ name))
    ∧ heap r.2 = heap s
    ∧ heap r.2 !! l = Some o
    ∧ _declarations r.2 = _declarations s.
Proof.
  intros Hmiss Hreg Hobj Hfld type [-> | ->].
  all: run; rewrite Hmiss; run; rewrite Hreg; run.
  all: rewrite Hobj, Hfld; simpl; auto.
Qed.

Lemma duplicate_field_list_rejected_witness :
  heap C5_example.after !! 0%nat = Some C5_example.point_type
  ∧ let r := _get_struct_or_union_type 1 "struct" (C5_example.point 2) None
               C5_example.after in
    r.1 = Raise (CDefError "duplicate declaration of struct Point")
    ∧ heap r.2 !! 0%nat = Some C5_example.point_type.
Proof.
  split; [vm_compute; reflexivity|].
  destruct (duplicate_field_list_rejected 1 "struct" 2 "Point"
              [Examples.int_decl "x"] None 0 C5_example.point_type
              [Some "x"] C5_example.after
              ltac:(vm_compute; reflexivity) ltac:(vm_compute; reflexivity)
              ltac:(vm_compute; reflexivity) ltac:(reflexivity)
              (C5_example.point 2) ltac:(left; reflexivity))
    as (H1 & _ & H3 & _).
  split; [exact H1 | exact H3].
Defined.

(** ** C6: the [__dotdotdot__] entry of a field list *)

(** C6 fails on the code: the branch that recognizes the [__dotdotdot__]
    entry of a field list evaluates the undefined name [xxxx].  For
    [struct foo { int a; ...; }] the resolution of the aggregate raises
    [NameError], which is none of the exceptions of [cffi.api]; the entry is
    not handed to the resolver, whatever the resolver is, and no field list
    that holds such an entry resolves. *)
Theorem dotdotdot_field_raises_name_error fuel kind id name typenode fname s :
  kind = "struct" ∨ kind = "union" →
  _structnode2type s !! id = None →
  _declarations s !! (kind +:+ " " +:+ name) = None →
  let decls := [Examples.int_decl fname;
                Decl None (IdentifierType ["__dotdotdot__"]) None] in
  (∀ type, type = Struct id (Some name) (Some decls)
           ∨ type = Union id (Some name) (Some decls) →
     (_get_struct_or_union_type (S fuel) kind type typenode s).1
     = Raise (NameError "xxxx"))
  ∧ is_api_error (NameError "xxxx") = false
  ∧ (∀ self_get_type rest s',
       struct_fields self_get_type
         (Decl None (IdentifierType ["__dotdotdot__"]) None :: rest) s'
       = (Raise (NameError "xxxx"), s'))
  ∧ (∀ self_get_type pre post s' flds s'',
       struct_fields self_get_type
         (pre ++ Decl None (IdentifierType ["__dotdotdot__"]) None :: post) s'
       ≠ (Ok flds, s'')).
Proof.
  intros Hkind Hmiss Hnone decls. split; [|split; [done|split]];
    [| |intros; by apply struct_fields_dotdotdot_never_ok].
  - intros type [-> | ->].
    all: run; rewrite Hmiss; run; rewrite Hnone.
    all: destruct Hkind as [-> | ->]; run.
    all: rewrite Hnone; run.
    all: rewrite lookup_app_r, Nat.sub_diag by lia; run.
    all: unfold get_type; run.
    all: match goal with
         | |- context [?m !! ("typedef " +:+ "int")] =>
             destruct (m !! ("typedef " +:+ "int")) as [[]|]
         end; reflexivity.
  - intros. by apply struct_fields_dotdotdot.
Qed.

Lemma dotdotdot_field_raises_name_error_witness :
  (_get_struct_or_union_type 1 "struct" C6_example.foo None init).1
  = Raise (NameError "xxxx").
Proof.
  destruct (dotdotdot_field_raises_name_error 0 "struct" 1 "foo" None "a"
              init) as (H & _); [left; reflexivity | reflexivity | reflexivity |].
  apply H. left. reflexivity.
Defined.

(** ** C7: anonymous and opaque enums *)

(** C7 fails on the code: the key is built with ['enum %s' % (name,)] also
    when [name] is [None], so an anonymous enum with an enumerator list is
    registered under [enum None], and every later anonymous enum resolves to
    that first one.  (The struct resolver registers only when the tag has a
    name.) *)
Theorem anonymous_enum_is_registered enumerators enumvalues s :
  _declarations s !! "enum None" = None →
  enum_values 0 enumerators = Ok enumvalues →
  let r := _get_enum_type (Enum None (Some enumerators)) s in
  let tp := Obj (List.length (heap s)) in
  r.1 = Ok tp
  ∧ _declarations r.2 !! "enum None" = Some tp
  ∧ heap r.2 !! List.length (heap s)
    = Some (EnumType None (map enumerator_name enumerators) enumvalues)
  ∧ ∀ values', _get_enum_type (Enum None values') r.2 = (Ok tp, r.2).
Proof.
  intros Hnone Hvalues r tp.
  assert (Hr : r = (Ok tp,
    {| _declarations := <["enum None":=tp]> (_declarations s);
       _anonymous_counter := _anonymous_counter s;
       _structnode2type := _structnode2type s;
       heap := heap s ++ [EnumType None (map enumerator_name enumerators)
                            enumvalues] |})).
  { unfold r, _get_enum_type, bind, declarations_get, lift, new. simpl.
    change ("enum " +:+ "None") with "enum None".
    rewrite Hnone, Hvalues. reflexivity. }
  rewrite Hr. simpl. split; [done|]. split; [apply lookup_insert_eq|].
  split.
  - rewrite lookup_app_r by lia. by rewrite Nat.sub_diag.
  - intros values'. apply (get_enum_type_present None). apply lookup_insert_eq.
Qed.

Lemma anonymous_enum_is_registered_witness :
  let r := _get_enum_type
             (Enum None (Some [Enumerator "A" None; Enumerator "B" None]))
             init in
  r.1 = Ok (Obj 0)
  ∧ _declarations r.2 !! "enum None" = Some (Obj 0)
  ∧ _get_enum_type (Enum None (Some [Enumerator "C" None])) r.2
    = (Ok (Obj 0), r.2).
Proof.
  destruct (anonymous_enum_is_registered
              [Enumerator "A" None; Enumerator "B" None] [0; 1] init)
    as (H1 & H2 & _ & H4); [vm_compute; reflexivity | vm_compute; reflexivity |].
  split; [exact H1|]. split; [exact H2|]. apply H4.
Defined.

(** What C7 says of opaque enums does hold: a mention without enumerator
    list of a tag that is not registered creates a new empty [EnumType] and
    registers nothing, so two mentions give two distinct objects. *)
Lemma opaque_enum_is_fresh name s :
  _declarations s !! ("enum " +:+ py_str name) = None →
  let r := _get_enum_type (Enum name None) s in
  let r' := _get_enum_type (Enum name None) r.2 in
  r.1 = Ok (Obj (List.length (heap s)))
  ∧ r'.1 = Ok (Obj (S (List.length (heap s))))
  ∧ heap r'.2 = heap s ++ [EnumType name [] []; EnumType name [] []]
  ∧ _declarations r'.2 = _declarations s.
Proof.
  intros Hnone. unfold _get_enum_type, bind, declarations_get, new. simpl.
  rewrite Hnone. simpl. rewrite Hnone. simpl.
  rewrite length_app, <- app_assoc. simpl. rewrite Nat.add_1_r. done.
Qed.

(** ** C8: the canonical name of [signed] *)

(** C8, as stated, fails: [signed] alone resolves to the primitive type
    named [int], not [signed int]. *)
Lemma signed_alone_is_not_signed_int :
  let r := _get_type 1 (TypeDecl None (IdentifierType ["signed"]))
             false false None init in
  r.1 = Ok (PrimitiveType "int") ∧ r.1 ≠ Ok (PrimitiveType "signed int").
Proof. vm_compute. split; [reflexivity | discriminate]. Qed.

(** C8, amended: a type node whose identifier list is the single token
    [signed] (which no typedef can be named after) resolves to the primitive
    type with canonical name [int]: [int] is appended, then the leading
    [signed] is dropped. *)
Theorem signed_alone_is_int fuel declname convert_array_to_pointer name s :
  _declarations s !! "typedef signed" = None →
  _get_type (S fuel) (TypeDecl declname (IdentifierType ["signed"]))
    convert_array_to_pointer false name s
  = (Ok (PrimitiveType "int"), s).
Proof.
  intros H. simpl. unfold get_type, bind, declarations_get. simpl.
  change ("typedef " +:+ "signed") with "typedef signed".
  rewrite H. reflexivity.
Qed.

Lemma signed_alone_is_int_witness :
  _get_type 1 (TypeDecl (Some "x") (IdentifierType ["signed"]))
    false false None init
  = (Ok (PrimitiveType "int"), init).
Proof. apply (signed_alone_is_int 0). reflexivity. Defined.

(** ** C9: array lengths and bit sizes *)

(** C9, as stated, fails: the Constant Evaluator accepts a negation, and
    [int a[-1]] resolves to an array type of length [-1]. *)
Lemma array_length_can_be_negative :
  _get_type 2
    (ArrayDecl (TypeDecl (Some "a") (IdentifierType ["int"]))
       (Some (UnaryOp "-" (Constant "int" "1"))))
    false false None init
  = (Ok (ArrayType (PrimitiveType "int") (Some (-1))), init)
  ∧ ¬ (0 ≤ -1).
Proof. split; [vm_compute; reflexivity | lia]. Qed.

(** C9, amended: the length of the array type built from an array declarator
    is absent when the declarator has no length expression, and otherwise the
    value of that expression, a literal or a negation, hence possibly
    negative; the bit size recorded for a field is [-1] when the field has no
    bit-field expression, and otherwise the value, possibly negative, of that
    expression. *)
Theorem lengths_and_bitsizes_are_constant_values :
  (∀ fuel elem dim force_pointer name s tp s',
     _get_type fuel (ArrayDecl elem dim) false force_pointer name s
     = (Ok tp, s') →
     ∃ item length,
       tp = ArrayType item length
       ∧ match dim with
         | None => length = None
         | Some e => ∃ n, length = Some n ∧ constant_value e n
         end)
  ∧ (∀ fuel kind type id name decls typenode s tp s',
       is_struct_or_union type id name (Some decls) →
       _structnode2type s !! id = None →
       _get_struct_or_union_type fuel kind type typenode s = (Ok tp, s') →
       ∃ l o fldbitsize,
         tp = Obj l ∧ heap s' !! l = Some o
         ∧ obj_fldbitsize o = Some fldbitsize
         ∧ Forall2 field_bitsize decls fldbitsize).
Proof.
  split.
  - intros [|fuel] elem dim fp name s tp s'; [discriminate|]. simpl.
    unfold get_type. intros H.
    apply bind_ok_inv in H as (typedef & s1 & [= <- <-] & H).
    apply bind_ok_inv in H as (length & s1 & Hlen & H).
    apply lift_ok_inv in Hlen as [Hlen ->].
    apply bind_ok_inv in H as (item & s2 & _ & [= <- <-]).
    exists item, length. split; [done|].
    destruct dim as [e|]; [|by injection Hlen].
    destruct (_parse_constant e) as [n|] eqn:E; [|discriminate].
    injection Hlen as <-. exists n. split; [done|].
    by apply parse_constant_value.
  - intros fuel kind type id name decls typenode s tp s' Htype Hmiss.
    unfold _get_struct_or_union_type.
    rewrite (get_struct_or_union_type_miss _ kind type id name (Some decls))
      by done.
    destruct (struct_skeleton kind name typenode s) as [[tp0|e] s1];
      [|discriminate].
    unfold struct_body. intros H.
    apply bind_ok_inv in H as (fldnames & s2 & Hnames & H).
    destruct fldnames; [discriminate|].
    apply bind_ok_inv in H as ([[names types] bits] & s3 & Hfields & H).
    apply bind_ok_inv in H as ([] & s4 & Hset & [= <- <-]).
    destruct tp0 as [| | | | |l]; try discriminate.
    unfold tp_fldnames in Hnames.
    apply bind_ok_inv in Hnames as (o & s2' & [= <- <-] & Hnames).
    simpl in Hnames.
    destruct (heap s1 !! l) as [o|] eqn:Ho; [|discriminate].
    apply lift_ok_inv in Hnames as [Hnames ->].
    match type of Hfields with
    | struct_fields _ _ ?st = _ =>
        pose proof (preserves_struct_fields (_get_type fuel)
                      (preserves_get_type fuel) decls st) as Hg
    end.
    rewrite Hfields in Hg. simpl in Hg.
    destruct (grows_objects _ _ Hg l o Ho) as (o' & Ho' & Hclass).
    injection Hset as <-. simpl.
    exists l, (obj_set_fields names types bits o'), bits.
    split; [done|]. split; [by rewrite list_lookup_alter_eq, Ho'|].
    split; [|by eapply struct_fields_bitsizes].
    destruct o, o'; simpl in *; done.
Qed.

Lemma lengths_and_bitsizes_are_constant_values_witness :
  (∃ item length,
     ArrayType (PrimitiveType "int") (Some (-1)) = ArrayType item length
     ∧ ∃ n, length = Some n
            ∧ constant_value C9_example.negative_length n)
  ∧ (∃ l o fldbitsize,
       Obj 0 = Obj l ∧ heap C9_example.after !! l = Some o
       ∧ obj_fldbitsize o = Some fldbitsize
       ∧ Forall2 field_bitsize C9_example.decls fldbitsize).
Proof.
  destruct lengths_and_bitsizes_are_constant_values as [H1 H2]. split.
  - apply (H1 2%nat (TypeDecl (Some "a") (IdentifierType ["int"]))
             (Some C9_example.negative_length) false None init _ init).
    vm_compute. reflexivity.
  - apply (H2 1%nat "struct" C9_example.flags 1%nat (Some "flags")
             C9_example.decls None init (Obj 0) C9_example.after);
      [left; reflexivity | reflexivity | vm_compute; reflexivity].
Defined.

(** ** C10: [parse_type] registers tags only *)

(** C10: whatever the front end returns for the text and whether the call
    returns or raises, [parse_type] leaves every [variable ] and [function ]
    key of the Declaration Table as it was (absent keys stay absent), and
    every key it adds is a [struct ], [union ] or [enum ] key. *)
Theorem parse_type_registers_only_tags :
  ∀ cparser_parse fuel cdecl force_pointer s,
    let s' := (parse_type cparser_parse fuel cdecl force_pointer s).2 in
    (∀ name,
       _declarations s' !! ("variable " +:+ name)
       = _declarations s !! ("variable " +:+ name)
       ∧ _declarations s' !! ("function " +:+ name)
         = _declarations s !! ("function " +:+ name))
    ∧ (∀ k, is_Some (_declarations s' !! k) →
            is_Some (_declarations s !! k) ∨ tag_key k).
Proof.
  intros cp fuel cdecl fp s s'.
  pose proof (preserves_parse_type cp fuel cdecl fp s) as Hg. fold s' in Hg.
  split.
  - intros name. split; apply grows_lookup_other; auto using
      tag_key_not_variable, tag_key_not_function.
  - apply Hg.
Qed.

(** The call returns the new struct and registers the tag. *)
Lemma parse_type_registers_only_tags_witness :
  C10_example.run.1 = Ok (Obj 0)
  ∧ _declarations C10_example.run.2 !! "struct foo" = Some (Obj 0)
  ∧ (is_Some (_declarations init !! "struct foo") ∨ tag_key "struct foo")
  ∧ _declarations C10_example.run.2 !! "variable __dummy" = None.
Proof.
  destruct (parse_type_registers_only_tags
              (Examples.front_end C10_example.csource C10_example.ext)
              3 "struct foo" false init) as [H1 H2].
  split; [vm_compute; reflexivity|]. split; [vm_compute; reflexivity|].
  split.
  - apply H2. exists (Obj 0). vm_compute. reflexivity.
  - destruct (H1 "__dummy") as [Hv _].
    etrans; [exact Hv | vm_compute; reflexivity].
Defined.

(** * Further properties *)

(** ** The enum evaluator *)

Lemma enum_values_rule next enumerators vs :
  enum_values next enumerators = Ok vs →
  List.length vs = List.length enumerators
  ∧ ∀ i enum, enumerators !! i = Some enum →
      ∃ v, vs !! i = Some v ∧ enumerator_rule next vs i enum v.
Proof.
  revert next vs. induction enumerators as [|enum0 rest IH]; intros next vs;
    simpl.
  - intros [= <-]. split; [done|]. intros i enum Hi. by destruct i.
  - destruct (match enumerator_value enum0 with
              | Some value => _parse_constant value
              | None => Ok next
              end) as [v0|e] eqn:Hv0; simpl; [|done].
    destruct (enum_values (v0 + 1) rest) as [vs'|e] eqn:Hrest; simpl; [|done].
    intros [= <-]. destruct (IH _ _ Hrest) as [Hlen Hrule].
    split; [simpl; by rewrite Hlen|].
    intros [|i] enum Hi; simpl in Hi.
    + injection Hi as <-. exists v0. split; [done|].
      unfold enumerator_rule. destruct (enumerator_value enum0); [done|].
      by injection Hv0.
    + destruct (Hrule i enum Hi) as (v & Hv & Hr). exists v. split; [done|].
      unfold enumerator_rule in *.
      destruct (enumerator_value enum); [done|].
      destruct i as [|j]; simpl.
      * exists v0. by subst.
      * exact Hr.
Qed.

(** X1: a new enum with an enumerator list gets one value per enumerator, in
    order: an explicit value is the value of its constant expression, the
    first enumerator without one gets 0 and any later one the value of its
    predecessor plus one; the names are recorded in the same order. *)
Theorem enum_values_follow_the_increment_rule name enumerators s tp s' :
  _declarations s !! ("enum " +:+ py_str name) = None →
  _get_enum_type (Enum name (Some enumerators)) s = (Ok tp, s') →
  ∃ vs,
    tp = Obj (List.length (heap s))
    ∧ heap s' !! List.length (heap s)
      = Some (EnumType name (map enumerator_name enumerators) vs)
    ∧ List.length vs = List.length enumerators
    ∧ ∀ i enum, enumerators !! i = Some enum →
        ∃ v, vs !! i = Some v ∧ enumerator_rule 0 vs i enum v.
Proof.
  intros Hnone. unfold _get_enum_type, bind, declarations_get, lift, new.
  simpl. rewrite Hnone.
  destruct (enum_values 0 enumerators) as [vs|e] eqn:Hvs; simpl; [|done].
  intros [= <- <-]. exists vs. simpl.
  split; [done|]. split; [by rewrite lookup_app_r, Nat.sub_diag by lia|].
  by apply enum_values_rule.
Qed.

Lemma enum_values_follow_the_increment_rule_witness :
  ∃ vs,
    Obj 0 = Obj (List.length (heap init))
    ∧ heap (_get_enum_type Extra_examples.color init).2
        !! List.length (heap init)
      = Some (EnumType (Some "Color") ["RED"; "GREEN"; "BLUE"] vs)
    ∧ List.length vs = 3%nat
    ∧ ∀ i enum, Extra_examples.color_enumerators !! i = Some enum →
        ∃ v, vs !! i = Some v ∧ enumerator_rule 0 vs i enum v.
Proof.
  apply (enum_values_follow_the_increment_rule (Some "Color")
           Extra_examples.color_enumerators init (Obj 0)
           (_get_enum_type Extra_examples.color init).2).
  - vm_compute. reflexivity.
  - vm_compute. reflexivity.
Defined.

(** ** Function types *)

Lemma map_ok_bind {A B C} (f : B → C) (m : M A) (k : A → M B) s :
  map_ok f (bind m k s) = bind m (λ a s1, map_ok f (k a s1)) s.
Proof. unfold bind. by destruct (m s) as [[a|e] s1]. Qed.

Lemma void_param_is_no_dotdotdot p :
  is_identifier_param ["void"] p = Ok true →
  is_identifier_param ["__dotdotdot__"] p = Ok false.
Proof.
  unfold is_identifier_param. destruct (attr_type p) as [t|]; simpl; [|done].
  destruct t as [| | |d t| | | | | | | |]; try done.
  destruct t; try done. intros [= H]. apply bool_decide_eq_true in H.
  by subst.
Qed.

(** X2: a parameter list that is the single entry [void] denotes no
    parameter at all: the function type is the one of the empty parameter
    list, not variadic, whatever the declaration of the entry looks like
    around the identifier. *)
Theorem void_parameter_list_is_empty self_get_type p result_node funcname s :
  is_identifier_param ["void"] p = Ok true →
  parse_function_type self_get_type (FuncDecl (Some [p]) result_node)
    funcname s
  = parse_function_type self_get_type (FuncDecl None result_node) funcname s
  ∧ parse_function_type self_get_type (FuncDecl (Some [p]) result_node)
      funcname s
    = map_ok (λ result, FunctionType [] result false)
        (self_get_type result_node false false None s).
Proof.
  intros Hvoid. pose proof (void_param_is_no_dotdotdot p Hvoid) as Hdots.
  unfold parse_function_type, bind, lift. simpl. rewrite Hdots. simpl.
  rewrite Hvoid. simpl. unfold ret.
  by destruct (self_get_type result_node false false None s) as [[r|e] s1].
Qed.

Lemma void_parameter_list_is_empty_witness :
  parse_function_type (_get_type 1)
    (FuncDecl (Some [Extra_examples.void_param]) Extra_examples.int_result)
    None init
  = map_ok (λ result, FunctionType [] result false)
      (_get_type 1 Extra_examples.int_result false false None init).
Proof.
  apply (void_parameter_list_is_empty (_get_type 1) Extra_examples.void_param
           Extra_examples.int_result None init).
  vm_compute. reflexivity.
Defined.

(** X3: a trailing [__dotdotdot__] parameter only sets the variadic flag:
    the declaration with the marker behaves (value, error and final state)
    like the declaration without it, except that the function type returned
    is variadic.  The parameters in front of the marker must not end in a
    marker themselves. *)
Theorem trailing_dotdotdot_sets_variadic self_get_type params marker
    result_node funcname s :
  is_identifier_param ["__dotdotdot__"] marker = Ok true →
  match last params with
  | Some p => is_identifier_param ["__dotdotdot__"] p = Ok false
  | None => True
  end →
  parse_function_type self_get_type
    (FuncDecl (Some (params ++ [marker])) result_node) funcname s
  = map_ok variadic
      (parse_function_type self_get_type (FuncDecl (Some params) result_node)
         funcname s)
  ∧ ∀ tp s', parse_function_type self_get_type
               (FuncDecl (Some params) result_node) funcname s = (Ok tp, s') →
             ∃ args result, tp = FunctionType args result false.
Proof.
  intros Hmarker Hlast.
  assert (Hell : match last params with
                 | Some p => is_identifier_param ["__dotdotdot__"] p
                 | None => Ok false
                 end = Ok false).
  { by destruct (last params). }
  split.
  - unfold parse_function_type. unfold bind at 1 5, lift at 1 3. simpl.
    rewrite last_snoc, Hmarker, Hell. simpl.
    rewrite removelast_last.
    rewrite !map_ok_bind. apply bind_ext; [done|]. intros params' s1.
    rewrite !map_ok_bind. apply bind_ext; [done|]. intros args s2.
    rewrite !map_ok_bind. apply bind_ext; [done|]. intros result s3. done.
  - intros tp s' H. unfold parse_function_type in H.
    apply bind_ok_inv in H as (ellipsis & s1 & Hellipsis & H).
    apply lift_ok_inv in Hellipsis as [Hellipsis _].
    rewrite Hell in Hellipsis. injection Hellipsis as <-.
    apply bind_ok_inv in H as (params' & s2 & _ & H).
    apply bind_ok_inv in H as (args & s3 & _ & H).
    apply bind_ok_inv in H as (result & s4 & _ & [= <- <-]). eauto.
Qed.

Lemma trailing_dotdotdot_sets_variadic_witness :
  parse_function_type (_get_type 1)
    (FuncDecl (Some ([Examples.int_decl "a"; Examples.int_decl "b"]
                     ++ [Extra_examples.dotdotdot_param]))
       Extra_examples.int_result) None init
  = (Ok (FunctionType [PrimitiveType "int"; PrimitiveType "int"]
           (PrimitiveType "int") true), init).
Proof.
  destruct (trailing_dotdotdot_sets_variadic (_get_type 1)
              [Examples.int_decl "a"; Examples.int_decl "b"]
              Extra_examples.dotdotdot_param Extra_examples.int_result
              None init) as [H _].
  - vm_compute. reflexivity.
  - vm_compute. reflexivity.
  - rewrite H. vm_compute. reflexivity.
Defined.

Lemma array_decays_like_pointer fuel elem dim force_pointer name name' s :
  _get_type fuel (ArrayDecl elem dim) true force_pointer name s
  = _get_type fuel (PtrDecl elem) true false name' s.
Proof.
  destruct fuel as [|fuel]; [done|]. simpl. unfold get_type, bind, ret. simpl.
  by destruct (_get_type fuel elem false false None s) as [[t|e] s1].
Qed.

Lemma is_identifier_param_decay names p :
  is_identifier_param names (decay_param p) = is_identifier_param names p.
Proof. destruct p as [n t b| |t| | | | | | | | |]; try done; by destruct t. Qed.

Lemma removelast_map {A B} (f : A → B) l :
  removelast (map f l) = map f (removelast l).
Proof.
  induction l as [|a [|b l] IH]; simpl in *; [done..|]. by rewrite IH.
Qed.

Lemma last_map {A B} (f : A → B) l : last (map f l) = f <$> last l.
Proof. induction l as [|a [|b l] IH]; simpl in *; done. Qed.

Lemma bind_lift_ok {A B} (a : A) (k : A → M B) s :
  bind (lift (Ok a)) k s = k a s.
Proof. done. Qed.

Lemma get_arg_types_decay fuel params s :
  get_arg_types (_get_type fuel) (map decay_param params) s
  = get_arg_types (_get_type fuel) params s.
Proof.
  revert s. induction params as [|p params IH]; intros s; simpl; [done|].
  destruct p as [n t b| |t| | | | | | | | |]; try destruct t; simpl.
  all: try (apply bind_ext; [done|]; intros t' s1;
            apply bind_ext; [done|]; intros arg s2;
            apply bind_ext; [apply IH|]; done).
  all: rewrite !bind_lift_ok.
  all: apply bind_ext; [symmetry; apply array_decays_like_pointer|];
         intros arg s1.
  all: apply bind_ext; [apply IH|]; done.
Qed.

(** X4: array parameters decay.  A function declaration resolves to the same
    function type, with the same final state or the same error, when each
    parameter declared as an array is declared as a pointer to the element
    instead; the length expression of an array parameter is therefore never
    evaluated and need not be constant. *)
Theorem array_parameters_decay_to_pointers fuel params result_node funcname s :
  parse_function_type (_get_type fuel)
    (FuncDecl (Some (map decay_param params)) result_node) funcname s
  = parse_function_type (_get_type fuel) (FuncDecl (Some params) result_node)
      funcname s.
Proof.
  unfold parse_function_type. rewrite last_map.
  assert (Hlast : match decay_param <$> last params with
                  | Some p => is_identifier_param ["__dotdotdot__"] p
                  | None => Ok false
                  end
                  = match last params with
                    | Some p => is_identifier_param ["__dotdotdot__"] p
                    | None => Ok false
                    end).
  { destruct (last params); simpl; [apply is_identifier_param_decay|done]. }
  rewrite Hlast. apply bind_ext; [done|]. intros ellipsis s1.
  assert (Hpop : (if ellipsis then removelast (map decay_param params)
                  else map decay_param params)
                 = map decay_param
                     (if ellipsis then removelast params else params)).
  { destruct ellipsis; [apply removelast_map | done]. }
  rewrite Hpop. generalize (if ellipsis then removelast params else params).
  intros params'. unfold bind at 1 4, lift at 1 2.
  destruct params' as [|p [|q params']]; simpl.
  - done.
  - rewrite is_identifier_param_decay.
    destruct (is_identifier_param ["void"] p) as [[]|e]; simpl; [done| |done].
    apply bind_ext; [apply (get_arg_types_decay fuel [p])|]. done.
  - apply bind_ext; [apply (get_arg_types_decay fuel (p :: q :: params'))|].
    done.
Qed.

(** ** Typedefs *)

(** X5: typedef transparency.  When a typedef entry has been processed, its
    name is bound to the type its declarator resolved to, and from then on,
    as long as the table keeps the entry, the bare identifier resolves to
    that very type and changes nothing. *)
Theorem typedef_is_transparent fuel name type s s' :
  parse_decls fuel [Typedef (Some name) type] s = (Ok tt, s') →
  ∃ tp,
    (∃ s1, _get_type fuel type false false None s = (Ok tp, s1))
    ∧ _declarations s' !! ("typedef " +:+ name) = Some tp
    ∧ ∀ s'' fuel' declname name',
        _declarations s' ⊆ _declarations s'' →
        _get_type (S fuel') (TypeDecl declname (IdentifierType [name]))
          false false name' s''
        = (Ok tp, s'').
Proof.
  simpl. intros H.
  apply bind_ok_inv in H as ([] & s2 & H & [= <-]).
  destruct name as [|c name]; [done|]. set (n := String c name) in *.
  apply bind_ok_inv in H as (tp & s1 & Htp & H).
  unfold _declare, bind, declarations_get in H.
  destruct (_declarations s1 !! ("typedef " +:+ n)) eqn:E; [done|].
  injection H as <-. exists tp. split; [eauto|].
  split; [simpl; apply lookup_insert_eq|].
  intros s'' fuel' declname name' Hsub. simpl.
  unfold get_type, bind, declarations_get.
  rewrite (lookup_weaken _ _ _ _ (lookup_insert_eq _ _ _) Hsub).
  by destruct tp.
Qed.

Lemma typedef_is_transparent_witness :
  let s := (parse_decls 1
              [Typedef (Some "myint")
                 (TypeDecl (Some "myint") (IdentifierType ["int"]))] init).2 in
  ∃ tp,
    (∃ s1, _get_type 1 (TypeDecl (Some "myint") (IdentifierType ["int"]))
             false false None init = (Ok tp, s1))
    ∧ _declarations s !! "typedef myint" = Some tp
    ∧ ∀ s'' fuel' declname name',
        _declarations s ⊆ _declarations s'' →
        _get_type (S fuel') (TypeDecl declname (IdentifierType ["myint"]))
          false false name' s''
        = (Ok tp, s'').
Proof.
  intros s.
  apply (typedef_is_transparent 1 "myint"
           (TypeDecl (Some "myint") (IdentifierType ["int"])) init s).
  vm_compute. reflexivity.
Defined.

(** ** The preamble of the text *)

Lemma skip_to_dotdotdot_app pre marker_type rest :
  Forall (λ decl, ∃ name, attr_name decl = Ok name
                          ∧ name ≠ Some "__dotdotdot__") pre →
  skip_to_dotdotdot (pre ++ Typedef (Some "__dotdotdot__") marker_type :: rest)
  = Ok rest.
Proof.
  induction 1 as [|decl pre (name & Hname & Hne) _ IH];
    cbn [app skip_to_dotdotdot attr_name rbind].
  - by rewrite bool_decide_eq_true_2.
  - rewrite Hname. cbn [rbind]. by rewrite bool_decide_eq_false_2.
Qed.

Lemma skip_to_dotdotdot_none ext :
  Forall (λ decl, ∃ name, attr_name decl = Ok name
                          ∧ name ≠ Some "__dotdotdot__") ext →
  skip_to_dotdotdot ext = Ok [].
Proof.
  induction 1 as [|decl pre (name & Hname & Hne) _ IH];
    cbn [skip_to_dotdotdot]; [done|].
  rewrite Hname. cbn [rbind]. by rewrite bool_decide_eq_false_2.
Qed.

(** X6: [parse] processes exactly the declarations that follow the first
    declaration named [__dotdotdot__]: what the front end returns in front
    of it (the typedefs repeated by [_parse]) is read for its names only.
    When the front end returns no such declaration nothing is processed,
    and when the front end fails its error is raised with the parser
    untouched. *)
Theorem parse_processes_what_follows_the_marker cparser_parse fuel csource s :
  (∀ pre marker_type rest,
     cparser_parse (preprocess (_declarations s) csource)
     = Ok (pre ++ Typedef (Some "__dotdotdot__") marker_type :: rest) →
     Forall (λ decl, ∃ name, attr_name decl = Ok name
                             ∧ name ≠ Some "__dotdotdot__") pre →
     parse cparser_parse fuel csource s = parse_decls fuel rest s)
  ∧ (∀ ext,
       cparser_parse (preprocess (_declarations s) csource) = Ok ext →
       Forall (λ decl, ∃ name, attr_name decl = Ok name
                               ∧ name ≠ Some "__dotdotdot__") ext →
       parse cparser_parse fuel csource s = (Ok tt, s))
  ∧ (∀ e,
       cparser_parse (preprocess (_declarations s) csource) = Raise e →
       parse cparser_parse fuel csource s = (Raise e, s)).
Proof.
  split; [|split].
  - intros pre marker_type rest Hparse Hpre.
    unfold parse, bind, _parse, lift. rewrite Hparse. simpl.
    by rewrite skip_to_dotdotdot_app.
  - intros ext Hparse Hext.
    unfold parse, bind, _parse, lift. rewrite Hparse. simpl.
    by rewrite skip_to_dotdotdot_none.
  - intros e Hparse. unfold parse, bind, _parse. by rewrite Hparse.
Qed.

Lemma parse_processes_what_follows_the_marker_witness :
  parse Extra_examples.myint_front_end 2 "myint x;" Extra_examples.with_myint
  = parse_decls 2 [Extra_examples.myint_x] Extra_examples.with_myint.
Proof.
  apply (proj1 (parse_processes_what_follows_the_marker
                  Extra_examples.myint_front_end 2 "myint x;"
                  Extra_examples.with_myint)
           [Extra_examples.myint_typedef]
           (TypeDecl (Some "__dotdotdot__") (IdentifierType ["int"]))
           [Extra_examples.myint_x]).
  - vm_compute. reflexivity.
  - repeat constructor. exists (Some "myint"). split; [reflexivity|discriminate].
Defined.

(** ** The text handed to the front end *)

Lemma ascii_compare_trans a b c :
  Ascii.compare a b = Lt → Ascii.compare b c = Lt → Ascii.compare a c = Lt.
Proof.
  unfold Ascii.compare. rewrite !N.compare_lt_iff. apply N.lt_trans.
Qed.

Lemma string_compare_trans a : ∀ b c,
  String.compare a b ≠ Gt → String.compare b c ≠ Gt →
  String.compare a c ≠ Gt.
Proof.
  induction a as [|x a IH]; intros [|y b] [|z c]; simpl; try done.
  destruct (Ascii.compare x y) eqn:Hxy; try done.
  - apply Ascii.compare_eq_iff in Hxy as ->.
    destruct (Ascii.compare y z); try done. apply IH.
  - destruct (Ascii.compare y z) eqn:Hyz; try done.
    + apply Ascii.compare_eq_iff in Hyz as <-. by rewrite Hxy.
    + by rewrite (ascii_compare_trans _ _ _ Hxy Hyz).
Qed.

Lemma string_le_compare a b : string_le a b ↔ String.compare a b ≠ Gt.
Proof. unfold string_le, String.leb. by destruct (String.compare a b). Qed.

#[local] Instance string_le_trans : Transitive string_le.
Proof.
  intros a b c. rewrite !string_le_compare. apply string_compare_trans.
Qed.

#[local] Instance string_le_antisymm : AntiSymm (=) string_le.
Proof. intros a b. apply String.leb_antisym. Qed.

#[local] Instance string_le_total : Total string_le.
Proof. intros a b. apply String.leb_total. Qed.

Lemma StronglySorted_filter {A} (R : relation A) (P : A → Prop)
    `{∀ x, Decision (P x)} (l : list A) :
  StronglySorted R l → StronglySorted R (filter P l).
Proof.
  induction 1 as [|x l Hl IH Hx]; [constructor|].
  rewrite filter_cons. case_decide; [|done]. constructor; [done|].
  rewrite Forall_forall in *. intros y Hy.
  apply list_elem_of_filter in Hy as [_ Hy]. auto.
Qed.

Lemma omap_filter_is_Some {A B} (f : A → option B) (P : A → Prop)
    `{∀ x, Decision (P x)} (l : list A) :
  (∀ x, is_Some (f x) → P x) → omap f (filter P l) = omap f l.
Proof.
  intros Hf. induction l as [|x l IH]; [done|].
  rewrite filter_cons. case_decide as HP; simpl.
  - destruct (f x); [f_equal|]; exact IH.
  - destruct (f x) eqn:E; [|exact IH]. destruct HP. apply Hf. by rewrite E.
Qed.

(** The sorted typedef keys are determined by the set of typedef keys. *)
Lemma sorted_typedef_keys (d d' : gmap string ctype) :
  typedef_keys d = typedef_keys d' →
  filter (λ key, String.prefix "typedef " key = true) (sorted_keys d)
  = filter (λ key, String.prefix "typedef " key = true) (sorted_keys d').
Proof.
  intros Hkeys.
  assert (Hin : ∀ d0 : gmap string ctype, ∀ key,
    key ∈ filter (λ key, String.prefix "typedef " key = true)
            (sorted_keys d0)
    ↔ key ∈ typedef_keys d0).
  { intros d0 key. unfold typedef_keys, sorted_keys.
    rewrite list_elem_of_filter, merge_sort_Permutation, elem_of_filter.
    rewrite elem_of_dom.
    change (map fst (map_to_list d0)) with ((map_to_list d0).*1).
    rewrite list_elem_of_fmap. apply and_iff_compat_l. split.
    - intros ([k v] & -> & Hkv). apply elem_of_map_to_list in Hkv. by exists v.
    - intros [v Hv]. exists (key, v). split; [done|].
      by apply elem_of_map_to_list. }
  apply (Sorted_unique string_le).
  1, 2: apply StronglySorted_Sorted, StronglySorted_filter,
          (StronglySorted_merge_sort string_le).
  apply NoDup_Permutation.
  1, 2: apply NoDup_filter; unfold sorted_keys;
          rewrite merge_sort_Permutation; apply NoDup_fst_map_to_list.
  intros key. by rewrite !Hin, Hkeys.
Qed.

(** X7: the text that [_parse] hands to the front end, and so the tree or
    the error that comes back, depends on the Declaration Table only through
    the set of its typedef keys: what the names are typedef'ed to, and the
    other declarations, play no role. *)
Theorem parse_text_depends_on_typedef_names cparser_parse csource s s' :
  typedef_keys (_declarations s) = typedef_keys (_declarations s') →
  preprocess (_declarations s) csource = preprocess (_declarations s') csource
  ∧ (_parse cparser_parse csource s).1 = (_parse cparser_parse csource s').1.
Proof.
  intros Hkeys.
  assert (Htext : preprocess (_declarations s) csource
                  = preprocess (_declarations s') csource).
  { unfold preprocess.
    rewrite <- (omap_filter_is_Some _
                  (λ key, String.prefix "typedef " key = true)
                  (sorted_keys (_declarations s))).
    2: { intros key [line Hline].
         by destruct (String.prefix "typedef " key). }
    rewrite <- (omap_filter_is_Some _
                  (λ key, String.prefix "typedef " key = true)
                  (sorted_keys (_declarations s'))).
    2: { intros key [line Hline].
         by destruct (String.prefix "typedef " key). }
    by rewrite (sorted_typedef_keys _ _ Hkeys). }
  split; [exact Htext|]. unfold _parse. simpl. by rewrite Htext.
Qed.

Lemma parse_text_depends_on_typedef_names_witness :
  (_parse Extra_examples.myint_front_end "myint x;"
     Extra_examples.with_other_myint).1
  = Ok [Extra_examples.myint_typedef; Examples.dotdotdot_typedef;
        Extra_examples.myint_x].
Proof.
  rewrite <- (proj2 (parse_text_depends_on_typedef_names
                       Extra_examples.myint_front_end "myint x;"
                       Extra_examples.with_myint
                       Extra_examples.with_other_myint
                       ltac:(vm_compute; reflexivity))).
  vm_compute. reflexivity.
Defined.

(** ** How the parser state evolves *)

Lemma evolves_refl s : evolves s s.
Proof. split; eauto. Qed.

Lemma evolves_trans s1 s2 s3 : evolves s1 s2 → evolves s2 s3 → evolves s1 s3.
Proof.
  intros [o1 f1 d1 c1 a1] [o2 f2 d2 c2 a2]. split.
  - intros l o Ho. destruct (o1 l o Ho) as (o' & Ho' & Hc).
    destruct (o2 l o' Ho') as (o'' & Ho'' & Hc').
    exists o''. eauto using same_class_trans.
  - eauto.
  - by trans (_declarations s2).
  - by trans (_structnode2type s2).
  - lia.
Qed.

Lemma keeps_evolves_bind {A B} (m : M A) (k : A → M B) :
  keeps evolves m → (∀ a, keeps evolves (k a)) → keeps evolves (bind m k).
Proof.
  intros Hm Hk s. unfold bind. specialize (Hm s).
  destruct (m s) as [[a|e] s1]; simpl in *; auto.
  eapply evolves_trans; [exact Hm | apply Hk].
Qed.

Lemma keeps_evolves_same {A} (m : M A) :
  (∀ s, (m s).2 = s) → keeps evolves m.
Proof. intros H s. rewrite H. apply evolves_refl. Qed.

Lemma keeps_evolves_next_anonymous : keeps evolves next_anonymous.
Proof. intros s. split; simpl; eauto. Qed.

Lemma keeps_evolves_new o : keeps evolves (new o).
Proof.
  intros s. split; simpl; auto using objects_app.
  intros l o' Ho' _. by apply lookup_app_l_Some.
Qed.

Lemma keeps_evolves_declare name obj : keeps evolves (_declare name obj).
Proof.
  intros s. unfold _declare, bind, declarations_get.
  destruct (_declarations s !! name) eqn:E; simpl; [apply evolves_refl|].
  split; simpl; eauto. by apply insert_subseteq.
Qed.

Lemma keeps_evolves_tp_fldnames tp : keeps evolves (tp_fldnames tp).
Proof.
  apply keeps_evolves_same. intros s. destruct tp; try done.
  unfold tp_fldnames, bind, heap_get. simpl. by destruct (heap s !! l).
Qed.

Lemma keeps_evolves_get_enum_type type : keeps evolves (_get_enum_type type).
Proof.
  intros s. destruct type; try apply evolves_refl.
  unfold _get_enum_type, bind, declarations_get, lift, ret, new; simpl.
  destruct (_declarations s !! _) eqn:E; simpl; [apply evolves_refl|].
  destruct values as [enumerators|]; simpl.
  - destruct (enum_values 0 enumerators); simpl; [|apply evolves_refl].
    split; simpl; auto using objects_app.
    + intros l o' Ho' _. by apply lookup_app_l_Some.
    + by apply insert_subseteq.
  - apply keeps_evolves_new.
Qed.

Create HintDb evolves.
#[local] Hint Resolve keeps_evolves_next_anonymous keeps_evolves_new
  keeps_evolves_declare keeps_evolves_tp_fldnames keeps_evolves_get_enum_type
  : evolves.

Ltac evolves_step :=
  match goal with
  | |- keeps evolves (bind _ _) => apply keeps_evolves_bind; [|intros ?]
  | |- keeps evolves (match ?x with _ => _ end) => destruct x
  | |- keeps evolves (if ?b then _ else _) => destruct b
  | |- keeps evolves _ => solve [auto with evolves]
  | |- keeps evolves _ => solve [apply keeps_evolves_same; intros ?; reflexivity]
  end.

Lemma get_struct_or_union_type_hit self_get_type kind type id name decls
    typenode tp s :
  is_struct_or_union type id name decls →
  _structnode2type s !! id = Some tp →
  get_struct_or_union_type self_get_type kind type typenode s = (Ok tp, s).
Proof.
  intros [-> | ->] Hhit; unfold get_struct_or_union_type, bind,
    structnode2type_get; simpl; by rewrite Hhit.
Qed.

Lemma is_struct_or_union_cases self_get_type kind type typenode s :
  (∃ id name decls, is_struct_or_union type id name decls)
  ∨ get_struct_or_union_type self_get_type kind type typenode s
    = (Raise AttributeError, s).
Proof.
  destruct type; try (by right); left; do 3 eexists; [by left | by right].
Qed.

Lemma keeps_evolves_struct_skeleton kind name typenode :
  keeps evolves (struct_skeleton kind name typenode).
Proof. unfold struct_skeleton. repeat evolves_step. Qed.

Lemma keeps_cache_struct_skeleton kind name typenode :
  keeps_cache (struct_skeleton kind name typenode).
Proof. unfold struct_skeleton. repeat keeps_cache_step. Qed.

Section ResolverEvolves.

Variable self_get_type : node → bool → bool → option string → M ctype.
Hypothesis self_evolves : ∀ n a b c, keeps evolves (self_get_type n a b c).

Lemma keeps_evolves_get_arg_types params :
  keeps evolves (get_arg_types self_get_type params).
Proof. induction params as [|p params IH]; simpl; repeat evolves_step. Qed.

Lemma keeps_evolves_parse_function_type typenode funcname :
  keeps evolves (parse_function_type self_get_type typenode funcname).
Proof.
  destruct typenode; simpl; repeat evolves_step;
    auto using keeps_evolves_get_arg_types.
Qed.

Lemma keeps_evolves_struct_fields decls :
  keeps evolves (struct_fields self_get_type decls).
Proof. induction decls as [|d decls IH]; simpl; repeat evolves_step. Qed.

(** The field lists are written on an object that had none when the
    resolution of the fields began. *)
Lemma keeps_evolves_struct_body tp name decls :
  keeps evolves (struct_body self_get_type tp name decls).
Proof.
  intros s. destruct decls as [decls|]; [|apply evolves_refl].
  unfold struct_body. unfold bind at 1.
  destruct tp as [| | | | |l]; try apply evolves_refl.
  unfold tp_fldnames, bind at 1, heap_get. simpl.
  destruct (heap s !! l) as [o|] eqn:Ho; [|apply evolves_refl].
  unfold lift. destruct (obj_fldnames o) as [[names|]|e] eqn:Hnames;
    try apply evolves_refl.
  unfold bind at 1.
  pose proof (keeps_evolves_struct_fields decls s) as Hloop.
  destruct (struct_fields self_get_type decls s) as [[[[ns ts] bs]|e] s1];
    simpl in *; [|done].
  unfold bind, heap_alter, ret. simpl.
  destruct Hloop as [Hobj Hcomplete Hdecl Hcache Hcounter].
  split; simpl; auto.
  - intros l' o' Ho'. destruct (Hobj l' o' Ho') as (o1 & Ho1 & Hclass).
    destruct (decide (l = l')) as [Heq|Hne].
    + subst l'. eexists. rewrite list_lookup_alter_eq, Ho1. simpl.
      split; [done|].
      eapply same_class_trans; [exact Hclass|apply same_class_set_fields].
    + rewrite list_lookup_alter_ne by done. eauto.
  - intros l' o' Ho' Hc. destruct (decide (l = l')) as [Heq|Hne].
    + subst l'. pose proof (eq_trans (eq_sym Ho) Ho') as [= <-].
      destruct o; simpl in *; by simplify_eq.
    + rewrite list_lookup_alter_ne by done. eauto.
Qed.

Lemma keeps_evolves_get_struct_or_union_type kind type typenode :
  keeps evolves (get_struct_or_union_type self_get_type kind type typenode).
Proof.
  intros s.
  destruct (is_struct_or_union_cases self_get_type kind type typenode s)
    as [(id & name & decls & Htype)|Herr];
    [|rewrite Herr; apply evolves_refl].
  destruct (_structnode2type s !! id) as [tp|] eqn:Hcache.
  - rewrite (get_struct_or_union_type_hit _ kind type id name decls _ tp)
      by done.
    apply evolves_refl.
  - rewrite (get_struct_or_union_type_miss _ kind type id name decls) by done.
    pose proof (keeps_evolves_struct_skeleton kind name typenode s) as Hskel.
    pose proof (keeps_cache_struct_skeleton kind name typenode s) as Hkeep.
    destruct (struct_skeleton kind name typenode s) as [[tp|e] s1];
      simpl in *; [|done].
    eapply evolves_trans; [exact Hskel|].
    eapply evolves_trans; [|apply keeps_evolves_struct_body].
    split; simpl; eauto. apply insert_subseteq. congruence.
Qed.

End ResolverEvolves.

Lemma keeps_evolves_get_type fuel :
  ∀ typenode convert_array_to_pointer force_pointer name,
    keeps evolves (_get_type fuel typenode convert_array_to_pointer
                     force_pointer name).
Proof.
  induction fuel as [|fuel IH]; intros typenode cap fp name; simpl.
  - apply keeps_evolves_same. done.
  - unfold get_type. repeat evolves_step;
      auto using keeps_evolves_get_struct_or_union_type,
                 keeps_evolves_parse_function_type.
Qed.

Lemma keeps_evolves_get_struct_or_union_type' fuel kind type typenode :
  keeps evolves (_get_struct_or_union_type fuel kind type typenode).
Proof.
  apply keeps_evolves_get_struct_or_union_type, keeps_evolves_get_type.
Qed.

Lemma keeps_evolves_parse_decl fuel decl : keeps evolves (_parse_decl fuel decl).
Proof.
  destruct decl; simpl; repeat evolves_step;
    auto using keeps_evolves_get_type, keeps_evolves_get_struct_or_union_type'.
Qed.

Lemma keeps_evolves_parse_decls fuel ext : keeps evolves (parse_decls fuel ext).
Proof.
  induction ext as [|decl ext IH]; simpl; repeat evolves_step;
    auto using keeps_evolves_parse_decl, keeps_evolves_get_type.
Qed.

Lemma keeps_evolves_parse cparser_parse fuel csource :
  keeps evolves (parse cparser_parse fuel csource).
Proof.
  unfold parse. repeat evolves_step; auto using keeps_evolves_parse_decls.
Qed.

Lemma keeps_evolves_parse_type cparser_parse fuel cdecl force_pointer :
  keeps evolves (parse_type cparser_parse fuel cdecl force_pointer).
Proof.
  unfold parse_type. repeat evolves_step; auto using keeps_evolves_get_type.
Qed.

Lemma persists_refl s : persists s s.
Proof. split; eauto. Qed.

Lemma persists_trans s1 s2 s3 :
  persists s1 s2 → persists s2 s3 → persists s1 s3.
Proof.
  intros [o1 c1 d1 a1] [o2 c2 d2 a2]. split.
  - intros l o Ho. destruct (o1 l o Ho) as (o' & Ho' & Hc).
    destruct (o2 l o' Ho') as (o'' & Ho'' & Hc').
    exists o''. eauto using same_class_trans.
  - auto.
  - by trans (_declarations s2).
  - lia.
Qed.

(** A call, with the end of its syntax tree. *)
Lemma evolves_persists_forget_nodes s s' :
  evolves s s' → persists s (forget_nodes s').
Proof. intros [o c d _ a]. by split. Qed.

(** X8: over any sequence of calls of [parse] and [parse_type], returning or
    raising, what the parser holds persists: a type object stays where it is
    and keeps its class and tag; an enum, and a struct or union whose field
    list is set when the calls begin, is not changed by them; entries of the
    Declaration Table are never removed or rebound; the counter of anonymous
    aggregates never decreases.  (The identity cache lasts for one call:
    within a call its entries are never removed or rebound either, see
    [evolves]; across calls nothing is said of it.) *)
Theorem calls_only_evolve_the_state cparser_parse fuel calls s :
  persists s (run_calls cparser_parse fuel calls s)
  ∧ (∀ csource, evolves s (parse cparser_parse fuel csource s).2)
  ∧ (∀ cdecl force_pointer,
       evolves s (parse_type cparser_parse fuel cdecl force_pointer s).2).
Proof.
  split; [|split; intros; [apply keeps_evolves_parse
                          |apply keeps_evolves_parse_type]].
  revert s. induction calls as [|c calls IH]; intros s; simpl;
    [apply persists_refl|].
  eapply persists_trans; [|apply IH].
  destruct c; simpl; apply evolves_persists_forget_nodes;
    [apply keeps_evolves_parse|apply keeps_evolves_parse_type].
Qed.

(** ** Identity of aggregates *)

Lemma struct_body_returns_tp self_get_type tp name decls s t s' :
  struct_body self_get_type tp name decls s = (Ok t, s') → t = tp.
Proof.
  destruct decls as [decls|]; simpl; [|by intros [= <- <-]].
  intros H. apply bind_ok_inv in H as ([names|] & s1 & _ & H); [done|].
  apply bind_ok_inv in H as ([[ns ts] bs] & s2 & _ & H).
  by apply bind_ok_inv in H as ([] & s3 & _ & [= <- <-]).
Qed.

Lemma struct_result_is_cached fuel kind type id name decls typenode s tp s' :
  is_struct_or_union type id name decls →
  _get_struct_or_union_type fuel kind type typenode s = (Ok tp, s') →
  _structnode2type s' !! id = Some tp.
Proof.
  intros Htype. unfold _get_struct_or_union_type.
  destruct (_structnode2type s !! id) as [tp0|] eqn:Hcache.
  - rewrite (get_struct_or_union_type_hit _ kind type id name decls _ tp0)
      by done.
    by intros [= <- <-].
  - rewrite (get_struct_or_union_type_miss _ kind type id name decls) by done.
    destruct (struct_skeleton kind name typenode s) as [[tp0|e] s1]; [|done].
    intros H. pose proof (struct_body_returns_tp _ _ _ _ _ _ _ H) as ->.
    pose proof (keeps_evolves_struct_body (_get_type fuel)
                  (keeps_evolves_get_type fuel) tp0 name decls
                  (structnode2type_setitem id tp0 s1).2) as Hbody.
    rewrite H in Hbody. simpl in Hbody.
    eapply lookup_weaken; [|apply Hbody]. apply lookup_insert_eq.
Qed.

(** X9: one type object per syntax node.  Once a struct or union node has
    been resolved, every later resolution of that same node, in any later
    state of the parser and whatever the kind, declarator or call depth
    passed, returns the same type object and changes nothing (so the two
    declarators of [typedef struct { } foo_t, *foo_p], which share the node,
    share the type). *)
Theorem same_node_same_object fuel kind type id name decls typenode s tp s' :
  is_struct_or_union type id name decls →
  _get_struct_or_union_type fuel kind type typenode s = (Ok tp, s') →
  ∀ s'' fuel' kind' type' name' decls' typenode',
    evolves s' s'' →
    is_struct_or_union type' id name' decls' →
    _get_struct_or_union_type fuel' kind' type' typenode' s'' = (Ok tp, s'').
Proof.
  intros Htype H s'' fuel' kind' type' name' decls' typenode' Hev Htype'.
  apply (get_struct_or_union_type_hit _ kind' type' id name' decls'); [done|].
  eapply lookup_weaken; [|apply (evolves_cache _ _ Hev)].
  exact (struct_result_is_cached _ _ _ _ _ _ _ _ _ _ Htype H).
Qed.

Lemma same_node_same_object_witness :
  let type := Struct 7 None (Some [Examples.int_decl "x"]) in
  let r := _get_struct_or_union_type 1 "struct" type
             (Some (TypeDecl (Some "foo_t") type)) init in
  r.1 = Ok (Obj 0)
  ∧ _get_struct_or_union_type 1 "struct" type
      (Some (TypeDecl (Some "foo_p") type)) r.2
    = (Ok (Obj 0), r.2).
Proof.
  intros type r. split; [vm_compute; reflexivity|].
  refine (same_node_same_object 1 "struct" type 7
            None (Some [Examples.int_decl "x"])
            (Some (TypeDecl (Some "foo_t") type)) init (Obj 0) r.2 _ _
            r.2 1%nat "struct" type None (Some [Examples.int_decl "x"])
            (Some (TypeDecl (Some "foo_p") type)) _ _);
    [left; reflexivity | vm_compute; reflexivity | apply evolves_refl
    | left; reflexivity].
Defined.

(** X10: one type object per tag.  When a tag is registered, a mention of it
    without field list by a node that the cache does not hold yet, in any
    later state of the parser, returns the registered type object; it
    creates no object and registers nothing, and if the fields of the object
    were set they are still the same. *)
Theorem registered_tag_is_stable self_get_type kind name tp s s'' type id
    typenode :
  _declarations s !! (kind +:+ " " +:+ name) = Some tp →
  evolves s s'' →
  is_struct_or_union type id (Some name) None →
  _structnode2type s'' !! id = None →
  let r := get_struct_or_union_type self_get_type kind type typenode s'' in
  r.1 = Ok tp
  ∧ heap r.2 = heap s''
  ∧ _declarations r.2 = _declarations s''
  ∧ _anonymous_counter r.2 = _anonymous_counter s''
  ∧ ∀ l o, tp = Obj l → heap s !! l = Some o → complete o →
           heap r.2 !! l = Some o.
Proof.
  intros Hreg Hev Htype Hmiss r.
  assert (Hr : r = (Ok tp, (structnode2type_setitem id tp s'').2)).
  { unfold r.
    rewrite (get_struct_or_union_type_miss _ kind type id (Some name) None)
      by done.
    unfold struct_skeleton, bind, declarations_get, ret. simpl.
    by rewrite (lookup_weaken _ _ _ _ Hreg (evolves_declarations _ _ Hev)). }
  rewrite Hr. simpl. repeat split.
  intros l o _ Ho Hc. by apply (evolves_complete _ _ Hev).
Qed.

Lemma registered_tag_is_stable_witness :
  let r := get_struct_or_union_type (_get_type 1) "struct"
             (Struct 2 (Some "Point") None) None C5_example.after in
  r.1 = Ok (Obj 0) ∧ heap r.2 !! 0%nat = Some C5_example.point_type.
Proof.
  destruct (registered_tag_is_stable (_get_type 1) "struct" "Point" (Obj 0)
              C5_example.after C5_example.after
              (Struct 2 (Some "Point") None) 2 None)
    as (H1 & _ & _ & _ & H5).
  - vm_compute. reflexivity.
  - apply evolves_refl.
  - left. reflexivity.
  - vm_compute. reflexivity.
  - split; [exact H1|].
    apply (H5 0%nat C5_example.point_type); [reflexivity| |exact I].
    vm_compute. reflexivity.
Defined.

Lemma anonymous_skeleton kind typenode s :
  kind = "struct" ∨ kind = "union" →
  is_declarator typenode →
  struct_skeleton kind None typenode s
  = (Ok (Obj (List.length (heap s))),
     {| _declarations := _declarations s;
        _anonymous_counter := next_counter typenode (_anonymous_counter s);
        _structnode2type := _structnode2type s;
        heap := heap s
                ++ [new_aggregate kind
                      (anonymous_name typenode (_anonymous_counter s))] |}).
Proof.
  intros Hkind Htn. unfold struct_skeleton, new_aggregate.
  destruct typenode as [[| | |[d|] t| | | | | | | |]|]; try done;
    destruct Hkind as [-> | ->]; run; reflexivity.
Qed.

Lemma anonymous_names_differ typenode1 typenode2 counter :
  declarator_name typenode1 = None → declarator_name typenode2 = None →
  anonymous_name typenode1 counter
  ≠ anonymous_name typenode2 (next_counter typenode1 counter).
Proof.
  intros H1 H2. unfold next_counter. rewrite H1.
  assert (Hname : ∀ typenode c, declarator_name typenode = None →
            anonymous_name typenode c = "$" +:+ pretty (S c)).
  { intros [[| | |[d|] t| | | | | | | |]|] c; by try done. }
  rewrite !Hname by done. intros [= H].
  pose proof (pretty_nat_inj _ _ H). lia.
Qed.

(** X11: anonymous aggregates are not shared by name.  Two distinct nodes of
    anonymous structs or unions without field list resolve to two distinct
    new objects; nothing is registered in the Declaration Table.  Each
    object is named after the enclosing declarator when that has a name;
    otherwise the counter is incremented and the object is named after its
    new value.  The counter is written back: the second name is taken from
    the counter that the first resolution left, so that two names taken
    from the counter differ. *)
Theorem anonymous_aggregates_are_distinct self_get_type kind type1 id1 type2
    id2 typenode1 typenode2 s :
  kind = "struct" ∨ kind = "union" →
  is_struct_or_union type1 id1 None None →
  is_struct_or_union type2 id2 None None →
  id1 ≠ id2 →
  _structnode2type s !! id1 = None →
  _structnode2type s !! id2 = None →
  is_declarator typenode1 → is_declarator typenode2 →
  let r1 := get_struct_or_union_type self_get_type kind type1 typenode1 s in
  let r2 := get_struct_or_union_type self_get_type kind type2 typenode2 r1.2 in
  let l := List.length (heap s) in
  let counter := _anonymous_counter s in
  let name1 := anonymous_name typenode1 counter in
  let name2 := anonymous_name typenode2 (next_counter typenode1 counter) in
  r1.1 = Ok (Obj l) ∧ r2.1 = Ok (Obj (S l))
  ∧ _declarations r2.2 = _declarations s
  ∧ heap r2.2 = heap s ++ [new_aggregate kind name1; new_aggregate kind name2]
  ∧ _anonymous_counter r1.2 = next_counter typenode1 counter
  ∧ _anonymous_counter r2.2
    = next_counter typenode2 (next_counter typenode1 counter)
  ∧ (declarator_name typenode1 = None → declarator_name typenode2 = None →
     name1 ≠ name2).
Proof.
  intros Hkind Htype1 Htype2 Hne Hmiss1 Hmiss2 Htn1 Htn2 r1 r2 l counter
    name1 name2.
  pose proof (anonymous_skeleton kind typenode1 s Hkind Htn1) as Hskel1.
  assert (Hr1 : r1 = (Ok (Obj l),
    (structnode2type_setitem id1 (Obj l)
       (struct_skeleton kind None typenode1 s).2).2)).
  { unfold r1.
    rewrite (get_struct_or_union_type_miss _ kind type1 id1 None None)
      by done.
    by rewrite Hskel1. }
  rewrite Hskel1 in Hr1. simpl in Hr1.
  set (s1 := r1.2). assert (Hs1 : s1 = r1.2) by done.
  rewrite Hr1 in Hs1. simpl in Hs1.
  pose proof (anonymous_skeleton kind typenode2 s1 Hkind Htn2) as Hskel2.
  assert (Hmiss2' : _structnode2type s1 !! id2 = None).
  { rewrite Hs1. simpl. by rewrite lookup_insert_ne. }
  assert (Hr2 : r2 = (Ok (Obj (List.length (heap s1))),
    (structnode2type_setitem id2 (Obj (List.length (heap s1)))
       (struct_skeleton kind None typenode2 s1).2).2)).
  { unfold r2. fold s1.
    rewrite (get_struct_or_union_type_miss _ kind type2 id2 None None)
      by done.
    by rewrite Hskel2. }
  rewrite Hskel2 in Hr2. simpl in Hr2.
  assert (Hlen : List.length (heap s1) = S l).
  { rewrite Hs1. simpl. rewrite length_app. simpl. unfold l. lia. }
  rewrite Hr1, Hr2, Hlen. simpl. split; [done|]. split; [done|].
  split; [by rewrite Hs1|].
  split; [rewrite Hs1; simpl; by rewrite <- app_assoc|].
  split; [by rewrite Hs1|]. split; [by rewrite Hs1|].
  apply anonymous_names_differ.
Qed.

(** Two anonymous structs behind declarators without a name, as
    [_get_type] passes them: the objects are named [$1] and [$2]. *)
Lemma anonymous_aggregates_are_distinct_witness :
  let typenode1 := Some (TypeDecl None (Struct 1 None None)) in
  let typenode2 := Some (TypeDecl None (Struct 2 None None)) in
  let r1 := get_struct_or_union_type (_get_type 1) "struct"
              (Struct 1 None None) typenode1 init in
  let r2 := get_struct_or_union_type (_get_type 1) "struct"
              (Struct 2 None None) typenode2 r1.2 in
  r1.1 = Ok (Obj 0) ∧ r2.1 = Ok (Obj 1)
  ∧ heap r2.2 = [StructType "$1" None None None;
                 StructType "$2" None None None]
  ∧ _anonymous_counter r2.2 = 2%nat.
Proof.
  intros typenode1 typenode2.
  destruct (anonymous_aggregates_are_distinct (_get_type 1) "struct"
              (Struct 1 None None) 1 (Struct 2 None None) 2
              typenode1 typenode2 init)
    as (H1 & H2 & _ & H4 & _ & H6 & _);
    [left; reflexivity | left; reflexivity | left; reflexivity | lia
    | reflexivity | reflexivity | exact I | exact I |].
  split; [exact H1|]. split; [exact H2|]. split; [exact H4 | exact H6].
Defined.

(** ** The field lists of an aggregate *)

Lemma struct_fields_shape self_get_type decls s names types bits s' :
  struct_fields self_get_type decls s = (Ok (names, types, bits), s') →
  Forall2 (λ decl name, attr_name decl = Ok name) decls names
  ∧ List.length types = List.length decls
  ∧ List.length bits = List.length decls.
Proof.
  revert s names types bits.
  induction decls as [|decl decls IH]; intros s names types bits; simpl.
  - intros [= <- <- <- <-]. by repeat constructor.
  - intros H.
    apply bind_ok_inv in H as (decltype & s1 & _ & H).
    apply bind_ok_inv in H as (_ & s2 & _ & H).
    apply bind_ok_inv in H as (declbitsize & s3 & _ & H).
    apply bind_ok_inv in H as (bitsize & s4 & _ & H).
    apply bind_ok_inv in H as (declname & s5 & Hname & H).
    apply lift_ok_inv in Hname as [Hname _].
    apply bind_ok_inv in H as (fldtype & s6 & _ & H).
    apply bind_ok_inv in H as ([[names' types'] bits'] & s7 & Hrest & H).
    simpl in H. injection H as Hn Ht Hb Hs. subst names types bits s'.
    destruct (IH _ _ _ _ Hrest) as (Hnames & Htypes & Hbits).
    split; [by constructor|]. simpl. by rewrite Htypes, Hbits.
Qed.

(** X12: the field attributes are parallel.  When the resolution of a struct
    or union node with a field list succeeds (on a node that the cache does
    not hold), the object returned has its three field attributes set, each
    with one entry per field declaration, and the names are the names of the
    declarations in order ([None] for an unnamed bit field). *)
Theorem field_attributes_are_parallel fuel kind type id name decls typenode s
    tp s' :
  is_struct_or_union type id name (Some decls) →
  _structnode2type s !! id = None →
  _get_struct_or_union_type fuel kind type typenode s = (Ok tp, s') →
  ∃ l o names types bits,
    tp = Obj l ∧ heap s' !! l = Some o
    ∧ obj_fields o = Some (names, types, bits)
    ∧ Forall2 (λ decl name, attr_name decl = Ok name) decls names
    ∧ List.length types = List.length decls
    ∧ List.length bits = List.length decls.
Proof.
  intros Htype Hmiss. unfold _get_struct_or_union_type.
  rewrite (get_struct_or_union_type_miss _ kind type id name (Some decls))
    by done.
  destruct (struct_skeleton kind name typenode s) as [[tp0|e] s1];
    [|discriminate].
  unfold struct_body. intros H.
  apply bind_ok_inv in H as (fldnames & s2 & Hnames & H).
  destruct fldnames; [discriminate|].
  apply bind_ok_inv in H as ([[names types] bits] & s3 & Hfields & H).
  apply bind_ok_inv in H as ([] & s4 & Hset & [= <- <-]).
  destruct tp0 as [| | | | |l]; try discriminate.
  unfold tp_fldnames in Hnames.
  apply bind_ok_inv in Hnames as (o & s2' & [= <- <-] & Hnames).
  simpl in Hnames.
  destruct (heap s1 !! l) as [o|] eqn:Ho; [|discriminate].
  apply lift_ok_inv in Hnames as [Hnames ->].
  match type of Hfields with
  | struct_fields _ _ ?st = _ =>
      pose proof (preserves_struct_fields (_get_type fuel)
                    (preserves_get_type fuel) decls st) as Hg
  end.
  rewrite Hfields in Hg. simpl in Hg.
  destruct (grows_objects _ _ Hg l o Ho) as (o' & Ho' & Hclass).
  injection Hset as <-. simpl.
  exists l, (obj_set_fields names types bits o'), names, types, bits.
  split; [done|]. split; [by rewrite list_lookup_alter_eq, Ho'|].
  split; [destruct o, o'; simpl in *; done|].
  by eapply struct_fields_shape.
Qed.

Lemma field_attributes_are_parallel_witness :
  ∃ l o names types bits,
    Obj 0 = Obj l ∧ heap C9_example.after !! l = Some o
    ∧ obj_fields o = Some (names, types, bits)
    ∧ Forall2 (λ decl name, attr_name decl = Ok name) C9_example.decls names
    ∧ List.length types = List.length C9_example.decls
    ∧ List.length bits = List.length C9_example.decls.
Proof.
  apply (field_attributes_are_parallel 1 "struct" C9_example.flags 1
           (Some "flags") C9_example.decls None init (Obj 0)
           C9_example.after);
    [left; reflexivity | reflexivity | vm_compute; reflexivity].
Defined.

(** ** Well-formed parser states *)

(** Induction on types, through the argument lists of function types. *)
Lemma ctype_nested_ind (P : ctype → Prop) :
  P void_type →
  (∀ name, P (PrimitiveType name)) →
  (∀ totype, P totype → P (PointerType totype)) →
  (∀ item length, P item → P (ArrayType item length)) →
  (∀ args result ellipsis, Forall P args → P result →
     P (FunctionType args result ellipsis)) →
  (∀ l, P (Obj l)) →
  ∀ tp, P tp.
Proof.
  intros Hvoid Hprim Hptr Harr Hfun Hobj.
  fix IH 1. intros [|name|totype|item length|args result ellipsis|l].
  - exact Hvoid.
  - apply Hprim.
  - apply Hptr, IH.
  - apply Harr, IH.
  - apply Hfun; [|apply IH].
    induction args as [|a args IHargs]; constructor; [apply IH | exact IHargs].
  - apply Hobj.
Qed.

Lemma closed_mono n n' tp : (n ≤ n')%nat → closed n tp = true → closed n' tp = true.
Proof.
  intros Hle. induction tp as [| | | |args result ellipsis Hargs IH|l]
    using ctype_nested_ind; simpl; auto.
  - rewrite !andb_true_iff. intros [Ha Hr]. split; [|auto].
    rewrite forallb_forall in *. rewrite Forall_forall in Hargs.
    intros a Hin. apply Hargs; [by apply list_elem_of_In | by apply Ha].
  - intros H. apply bool_decide_eq_true in H. apply bool_decide_eq_true. lia.
Qed.

Lemma all_closed_mono n n' tps :
  (n ≤ n')%nat → forallb (closed n) tps = true → forallb (closed n') tps = true.
Proof.
  intros Hle. rewrite !forallb_forall. intros H a Hin.
  eapply closed_mono; eauto.
Qed.

Lemma obj_closed_mono n n' o :
  (n ≤ n')%nat → obj_closed n o = true → obj_closed n' o = true.
Proof. destruct o as [? ? [ts|] ?|? ? [ts|] ?|]; simpl; eauto using all_closed_mono. Qed.

Lemma closed_get_type_pointer n tp :
  closed n (_get_type_pointer tp) = closed n tp.
Proof. by destruct tp. Qed.

Lemma tagged_mono (h h' : list object) key tp :
  (∀ l o, h !! l = Some o → ∃ o', h' !! l = Some o' ∧ same_class o o') →
  tagged h key tp → tagged h' key tp.
Proof.
  intros Hobj (Hs & Hu & He). split; [|split]; intros name Hkey.
  - destruct (Hs name Hkey) as (l & a & b & c & -> & Hl).
    destruct (Hobj _ _ Hl) as ([] & Hl' & Hc); simpl in Hc; try done.
    subst. eauto 10.
  - destruct (Hu name Hkey) as (l & a & b & c & -> & Hl).
    destruct (Hobj _ _ Hl) as ([] & Hl' & Hc); simpl in Hc; try done.
    subst. eauto 10.
  - destruct (He name Hkey) as (l & a & b & c & -> & Hl & Hn).
    destruct (Hobj _ _ Hl) as ([] & Hl' & Hc); simpl in Hc; try done.
    injection Hc as <- <- <-. eauto 10.
Qed.

Lemma stable_closed_in tp : stable (closed_in tp).
Proof. intros s s' Hg. by apply closed_mono. Qed.

Lemma stable_all_closed_in tps : stable (all_closed_in tps).
Proof. intros s s' Hg. by apply all_closed_mono. Qed.

Lemma stable_and F G : stable F → stable G → stable (λ s, F s ∧ G s).
Proof. intros HF HG s s' Hg [? ?]. split; eauto. Qed.

Lemma stable_true : stable (λ _, True).
Proof. done. Qed.

Create HintDb stable.
#[local] Hint Resolve stable_closed_in stable_all_closed_in stable_and
  stable_true : stable.

Lemma preserves_extends_heap {A} (m : M A) : preserves m → extends_heap m.
Proof. intros H s. apply H. Qed.

(** *** Keys of the Declaration Table *)

Lemma append_inj p a b : p +:+ a = p +:+ b → a = b.
Proof.
  induction p as [|c p IH]; [done|].
  unfold String.append; fold String.append. intros [= H]. auto.
Qed.

Lemma tagged_other h key tp : ¬ tag_key key → tagged h key tp.
Proof.
  intros H. split; [|split]; intros name ->; destruct H; exists name; auto.
Qed.

Lemma tag_key_not_typedef name : ¬ tag_key ("typedef " +:+ name).
Proof. intros [n [H|[H|H]]]; discriminate H. Qed.

Lemma tagged_struct h l name names types bits :
  h !! l = Some (StructType name names types bits) →
  tagged h ("struct" +:+ " " +:+ name) (Obj l).
Proof.
  intros Hl. split; [|split]; intros name' H; [|discriminate H..].
  apply (append_inj "struct ") in H as <-. eauto 10.
Qed.

Lemma tagged_union h l name names types bits :
  h !! l = Some (UnionType name names types bits) →
  tagged h ("union" +:+ " " +:+ name) (Obj l).
Proof.
  intros Hl. split; [|split]; intros name' H; [discriminate H| |discriminate H].
  apply (append_inj "union ") in H as <-. eauto 10.
Qed.

Lemma tagged_enum h l name enumerators enumvalues :
  h !! l = Some (EnumType name enumerators enumvalues) →
  tagged h ("enum " +:+ py_str name) (Obj l).
Proof.
  intros Hl. split; [|split]; intros name' H; [discriminate H..|].
  apply append_inj in H as <-. eauto 10.
Qed.

(** *** Updates of the state *)

(** A state stays well-formed when the store is extended in place and
    every new entry is closed and, under a tag key, tagged. *)
Lemma well_formed_update s s' :
  well_formed s →
  (∀ l o, heap s !! l = Some o →
     ∃ o', heap s' !! l = Some o' ∧ same_class o o') →
  (List.length (heap s) ≤ List.length (heap s'))%nat →
  (∀ key tp, _declarations s' !! key = Some tp →
     _declarations s !! key = Some tp
     ∨ closed (List.length (heap s')) tp = true ∧ tagged (heap s') key tp) →
  (∀ i tp, _structnode2type s' !! i = Some tp →
     _structnode2type s !! i = Some tp
     ∨ closed (List.length (heap s')) tp = true) →
  (∀ l o, heap s' !! l = Some o →
     heap s !! l = Some o ∨ obj_closed (List.length (heap s')) o = true) →
  well_formed s'.
Proof.
  intros [Hd Hc Hh] Hobj Hlen Hd' Hc' Hh'. split.
  - intros key tp Hkey. destruct (Hd' _ _ Hkey) as [Hold|]; [|done].
    destruct (Hd _ _ Hold). eauto using closed_mono, tagged_mono.
  - intros i tp Hi. destruct (Hc' _ _ Hi) as [Hold|]; [|done].
    eauto using closed_mono.
  - intros l o Hl. destruct (Hh' _ _ Hl) as [Hold|]; [|done].
    eauto using obj_closed_mono.
Qed.

Lemma well_formed_new o s :
  (∀ n, obj_closed n o = true) → well_formed s → well_formed (new o s).2.
Proof.
  intros Ho Hwf. apply (well_formed_update s); simpl; auto using objects_app.
  - rewrite length_app. simpl. lia.
  - intros l o' Hl. apply lookup_app_Some in Hl as [Hl|[_ Hl]]; [by left|].
    right. apply list_lookup_singleton_Some in Hl as [_ <-]. apply Ho.
Qed.

Lemma well_formed_declarations_setitem key tp s :
  closed_in tp s → tagged (heap s) key tp → well_formed s →
  well_formed (declarations_setitem key tp s).2.
Proof.
  intros Hcl Ht Hwf. apply (well_formed_update s); simpl; auto.
  intros k tp' Hk. apply lookup_insert_Some in Hk as [[<- <-]|[_ Hk]]; auto.
Qed.

Lemma well_formed_structnode2type_setitem i tp s :
  closed_in tp s → well_formed s →
  well_formed (structnode2type_setitem i tp s).2.
Proof.
  intros Hcl Hwf. apply (well_formed_update s); simpl; auto.
  intros k tp' Hk. apply lookup_insert_Some in Hk as [[<- <-]|[_ Hk]]; auto.
Qed.

Lemma well_formed_next_anonymous s :
  well_formed s → well_formed (next_anonymous s).2.
Proof. intros Hwf. apply (well_formed_update s); simpl; auto. Qed.

Lemma well_formed_heap_alter names types bits l s :
  all_closed_in types s → well_formed s →
  well_formed (heap_alter (obj_set_fields names types bits) l s).2.
Proof.
  intros Hcl Hwf. apply (well_formed_update s); simpl; auto.
  - apply (preserves_heap_alter names types bits l s).
  - rewrite length_alter. lia.
  - intros l' o Hl. rewrite length_alter.
    destruct (decide (l = l')) as [<-|Hne].
    + rewrite list_lookup_alter_eq in Hl.
      apply fmap_Some in Hl as (o0 & E & ->). right.
      destruct o0; simpl; auto.
    + rewrite list_lookup_alter_ne in Hl by done. auto.
Qed.

(** *** The rules *)

Lemma hoare_bind {A B} P (m : M A) Q (k : A → M B) R :
  hoare P m Q → (∀ a, hoare (Q a) (k a) R) → hoare P (bind m k) R.
Proof.
  intros Hm Hk s Hwf HP. unfold bind. destruct (Hm s Hwf HP) as [Hwf1 HQ].
  destruct (m s) as [[a|e] s1]; simpl in *; [|done].
  apply Hk; auto.
Qed.

Lemma hoare_conseq {A} (P P' : Parser → Prop) (m : M A)
    (Q Q' : A → Parser → Prop) :
  hoare P m Q → (∀ s, P' s → P s) → (∀ a s, Q a s → Q' a s) → hoare P' m Q'.
Proof.
  intros H HP HQ s Hwf HP'. destruct (H s Hwf (HP _ HP')) as [Hwf1 H1].
  split; auto.
Qed.

Lemma hoare_same {A} P (m : M A) (Q : A → Parser → Prop) :
  (∀ s, (m s).2 = s) →
  (∀ s a, well_formed s → P s → (m s).1 = Ok a → Q a s) →
  hoare P m Q.
Proof.
  intros Hsame HQ s Hwf HP. rewrite Hsame. split; [done|].
  intros a Ha. by apply HQ.
Qed.

Lemma hoare_frame {A} P (m : M A) Q F :
  extends_heap m → stable F → hoare P m Q →
  hoare (λ s, P s ∧ F s) m (λ a s, Q a s ∧ F s).
Proof.
  intros Hext HF H s Hwf [HP HFs]. destruct (H s Hwf HP) as [Hwf1 H1].
  split; [done|]. intros a Ha. split; [auto|]. eapply HF; [apply Hext|done].
Qed.

(** Sequencing, with a stable fact [F] carried across [m]. *)
Lemma hoare_bind_frame {A B} F (m : M A) Q (k : A → M B) R :
  preserves m → stable F → hoare (λ _, True) m Q →
  (∀ a, hoare (λ s, Q a s ∧ F s) (k a) R) → hoare F (bind m k) R.
Proof.
  intros Hpres HF Hm Hk. eapply hoare_bind; [|exact Hk].
  eapply hoare_conseq;
    [apply (hoare_frame _ _ _ F (preserves_extends_heap _ Hpres) HF Hm)
    |simpl; auto..].
Qed.

(** Sequencing after a piece that leaves the state alone. *)
Lemma hoare_bind_same {A B} P (m : M A) (k : A → M B) R :
  (∀ s, (m s).2 = s) → (∀ a, hoare P (k a) R) → hoare P (bind m k) R.
Proof.
  intros Hsame Hk. eapply hoare_bind; [|exact Hk].
  apply hoare_same; auto.
Qed.

Lemma hoare_bind_lift {A B} P (r : result A) (k : A → M B) R :
  (∀ a, r = Ok a → hoare P (k a) R) → hoare P (bind (lift r) k) R.
Proof.
  intros Hk s Hwf HP. unfold bind, lift. destruct r as [a|e]; [|done].
  by apply Hk.
Qed.

Lemma hoare_ret {A} (a : A) (P : Parser → Prop) (Q : A → Parser → Prop) :
  (∀ s, P s → Q a s) → hoare P (ret a) Q.
Proof. intros H. apply hoare_same; [done|]. intros s b _ HP [= <-]. auto. Qed.

Lemma hoare_raise {A} e P (Q : A → Parser → Prop) : hoare P (raise e) Q.
Proof. by apply hoare_same. Qed.

Lemma hoare_pre {A} (P P' : Parser → Prop) (m : M A) Q :
  (∀ s, P' s → P s) → hoare P m Q → hoare P' m Q.
Proof. intros HP H. eapply hoare_conseq; eauto. Qed.

(** *** The primitives *)

Lemma hoare_declarations_get key P :
  hoare P (declarations_get key)
    (λ found s, P s ∧ ∀ tp, found = Some tp →
                      closed_in tp s ∧ tagged (heap s) key tp).
Proof.
  apply hoare_same; [done|]. intros s found Hwf HP [= <-]. split; [done|].
  intros tp Htp. by apply (wf_declarations s Hwf).
Qed.

Lemma hoare_new o :
  (∀ n, obj_closed n o = true) →
  hoare (λ _, True) (new o)
    (λ tp s, ∃ l, tp = Obj l ∧ heap s !! l = Some o).
Proof.
  intros Ho s Hwf _. split; [by apply well_formed_new|].
  intros tp [= <-]. eexists. split; [done|]. simpl.
  by rewrite lookup_app_r, Nat.sub_diag.
Qed.

Lemma closed_in_lookup l o s : heap s !! l = Some o → closed_in (Obj l) s.
Proof.
  intros H. apply bool_decide_eq_true. by apply lookup_lt_Some in H.
Qed.

Lemma hoare_declare key tp :
  hoare (λ s, closed_in tp s ∧ tagged (heap s) key tp) (_declare key tp)
    (λ _ s, closed_in tp s).
Proof.
  intros s Hwf [Hcl Ht]. unfold _declare, bind, declarations_get.
  destruct (_declarations s !! key); simpl; [done|].
  split; [by apply well_formed_declarations_setitem | done].
Qed.

Lemma hoare_structnode2type_setitem i tp :
  hoare (closed_in tp) (structnode2type_setitem i tp) (λ _ s, closed_in tp s).
Proof.
  intros s Hwf Hcl. split; [by apply well_formed_structnode2type_setitem|done].
Qed.

Lemma hoare_tp_set_fields tp names types bits F :
  stable F →
  hoare (λ s, all_closed_in types s ∧ F s)
    (tp_set_fields tp names types bits) (λ _ s, F s).
Proof.
  intros HF s Hwf [Hcl HFs]. destruct tp; try done. simpl.
  split; [by apply well_formed_heap_alter|]. intros _ _.
  eapply HF; [|done]. simpl. by rewrite length_alter.
Qed.

Lemma tp_fldnames_same tp s : (tp_fldnames tp s).2 = s.
Proof.
  destruct tp; try done. unfold tp_fldnames, bind, heap_get.
  by destruct (heap s !! l).
Qed.

(** *** The enum resolver *)

Lemma hoare_get_enum_type type :
  hoare (λ _, True) (_get_enum_type type) closed_in.
Proof.
  destruct type as [| | | | | | | | | |name decls|]; try apply hoare_raise.
  unfold _get_enum_type.
  eapply hoare_bind; [apply hoare_declarations_get|]. intros [tp|]; simpl.
  { apply hoare_ret. intros s [_ H]. by apply H. }
  destruct decls as [enumerators|].
  - apply hoare_bind_lift. intros enumvalues _.
    eapply hoare_pre; [|eapply hoare_bind; [by apply hoare_new|]]; [done|].
    intros tp s Hwf (l & -> & Hl). unfold bind, ret; simpl.
    split; [|intros ? [= <-]; by eapply closed_in_lookup].
    apply well_formed_declarations_setitem; auto.
    + by eapply closed_in_lookup.
    + by eapply tagged_enum.
  - eapply hoare_conseq; [by apply hoare_new | done |].
    intros tp s (l & -> & Hl). by eapply closed_in_lookup.
Qed.

(** *** The aggregate resolver *)

Lemma hoare_struct_skeleton kind name typenode :
  hoare (λ _, True) (struct_skeleton kind name typenode) closed_in.
Proof.
  assert (Hnew : ∀ explicit_name,
    hoare (λ _, True)
      (if bool_decide (kind = "struct")
       then new (StructType explicit_name None None None)
       else if bool_decide (kind = "union")
       then new (UnionType explicit_name None None None)
       else raise AssertionError)
      (λ tp s, ∃ l, tp = Obj l ∧
         heap s !! l = Some (new_aggregate kind explicit_name)
         ∧ (kind = "struct" ∨ kind = "union"))).
  { intros explicit_name. unfold new_aggregate.
    repeat case_bool_decide; try apply hoare_raise.
    all: eapply hoare_conseq; [by apply hoare_new | done |].
    all: intros tp s (l & -> & Hl); eauto 10. }
  unfold struct_skeleton. destruct name as [name|].
  - eapply hoare_bind with
      (Q := λ found s, found.1 = name ∧ ∀ tp, found.2 = Some tp →
              closed_in tp s ∧ tagged (heap s) (kind +:+ " " +:+ name) tp).
    { eapply hoare_bind; [apply hoare_declarations_get|].
      intros tp. apply hoare_ret. intros s [_ H]. by split. }
    intros [explicit_name [tp|]]; simpl.
    { apply hoare_ret. intros s [_ H]. by apply H. }
    eapply hoare_bind with
      (Q := λ tp s, explicit_name = name ∧ ∃ l, tp = Obj l ∧
         heap s !! l = Some (new_aggregate kind explicit_name)
         ∧ (kind = "struct" ∨ kind = "union")).
    { intros s Hwf [Hname _]. destruct (Hnew explicit_name s Hwf I). auto. }
    intros tp. eapply hoare_bind with (Q := λ _ s, closed_in tp s).
    + eapply hoare_pre; [|apply hoare_declare].
      intros s (-> & l & -> & Hl & Hkind). split; [by eapply closed_in_lookup|].
      unfold new_aggregate in Hl.
      destruct Hkind as [-> | ->]; simpl in Hl.
      * by eapply tagged_struct.
      * by eapply tagged_union.
    + intros _. by apply hoare_ret.
  - eapply hoare_bind with (Q := λ found _, found.2 = None).
    { eapply hoare_bind with (Q := λ _ _, True);
        [|intros e; by apply hoare_ret].
      assert (Hcount : hoare (λ _, True)
                (counter <- next_anonymous ;; ret ("$" +:+ pretty counter))
                (λ _ _, True)).
      { eapply hoare_bind with (Q := λ _ _, True);
          [|intros ?; by apply hoare_ret].
        intros s Hwf _. split; [by apply well_formed_next_anonymous|done]. }
      destruct typenode as [[| | |[declname|] ?| | | | | | | |]|];
        try apply hoare_raise; try exact Hcount.
      by apply hoare_ret. }
    intros [explicit_name [tp|]]; simpl; [by intros s _ [=]|].
    eapply hoare_pre; [|eapply hoare_bind; [apply Hnew|]]; [done|].
    intros tp. apply hoare_bind_same; [done|]. intros _.
    apply hoare_ret. intros s (l & -> & Hl & _). by eapply closed_in_lookup.
Qed.

Section ResolverWellFormed.

Variable self_get_type : node → bool → bool → option string → M ctype.
Hypothesis self_preserves : ∀ n a b c, preserves (self_get_type n a b c).
Hypothesis self_hoare :
  ∀ n a b c, hoare (λ _, True) (self_get_type n a b c) closed_in.

Lemma hoare_get_arg_types params :
  hoare (λ _, True) (get_arg_types self_get_type params) all_closed_in.
Proof.
  induction params as [|p rest IH]; simpl.
  { by apply hoare_ret. }
  apply hoare_bind_lift. intros argtype _.
  eapply hoare_bind_frame;
    [apply self_preserves | auto with stable | apply self_hoare|].
  intros arg.
  eapply hoare_bind_frame;
    [by apply preserves_get_arg_types | auto with stable | apply IH|].
  intros args. apply hoare_ret. intros s (Hargs & Harg & _).
  unfold all_closed_in in *. simpl. by rewrite Harg, Hargs.
Qed.

Lemma hoare_parse_function_type typenode funcname :
  hoare (λ _, True) (parse_function_type self_get_type typenode funcname)
    closed_in.
Proof.
  destruct typenode; try apply hoare_raise. simpl.
  apply hoare_bind_lift. intros ellipsis _.
  apply hoare_bind_lift. intros params _.
  eapply hoare_bind_frame;
    [by apply preserves_get_arg_types | auto with stable
    | apply hoare_get_arg_types|].
  intros args'.
  eapply hoare_bind_frame;
    [apply self_preserves | auto with stable | apply self_hoare|].
  intros result. apply hoare_ret. intros s (Hres & Hargs & _).
  unfold closed_in, all_closed_in in *. simpl. by rewrite Hargs, Hres.
Qed.

Lemma hoare_struct_fields decls :
  hoare (λ _, True) (struct_fields self_get_type decls)
    (λ flds s, all_closed_in flds.1.2 s).
Proof.
  induction decls as [|decl rest IH]; simpl.
  { by apply hoare_ret. }
  apply hoare_bind_lift. intros decltype _.
  apply hoare_bind_same.
  { intros s. destruct decltype; try done. by case_bool_decide. }
  intros _. apply hoare_bind_lift. intros declbitsize _.
  apply hoare_bind_lift. intros bitsize _.
  apply hoare_bind_lift. intros declname _.
  eapply hoare_bind_frame;
    [apply self_preserves | auto with stable | apply self_hoare|].
  intros fldtype.
  eapply hoare_bind_frame;
    [by apply preserves_struct_fields | auto with stable | apply IH|].
  intros [[fldnames fldtypes] fldbitsize]. apply hoare_ret.
  intros s (Htypes & Htype & _).
  unfold closed_in, all_closed_in in *. simpl in *. by rewrite Htype, Htypes.
Qed.

Lemma hoare_struct_body tp name decls :
  hoare (closed_in tp) (struct_body self_get_type tp name decls) closed_in.
Proof.
  unfold struct_body. destruct decls as [decls|]; [|by apply hoare_ret].
  apply hoare_bind_same; [apply tp_fldnames_same|].
  intros [fldnames|]; [apply hoare_raise|].
  eapply hoare_bind_frame;
    [by apply preserves_struct_fields | auto with stable
    | apply hoare_struct_fields|].
  intros [[fldnames fldtypes] fldbitsize].
  eapply hoare_bind;
    [apply (hoare_tp_set_fields _ _ _ _ (closed_in tp)); auto with stable|].
  intros ?. by apply hoare_ret.
Qed.

Lemma hoare_get_struct_or_union_type kind type typenode :
  hoare (λ _, True)
    (get_struct_or_union_type self_get_type kind type typenode) closed_in.
Proof.
  intros s Hwf _.
  destruct (is_struct_or_union_cases self_get_type kind type typenode s)
    as [(id & name & decls & Htype)| ->]; [|done].
  destruct (_structnode2type s !! id) as [tp|] eqn:Hid.
  { rewrite (get_struct_or_union_type_hit _ _ _ _ _ _ _ _ _ Htype Hid).
    split; [done|]. intros ? [= <-]. by apply (wf_cache s Hwf id). }
  rewrite (get_struct_or_union_type_miss _ _ _ _ _ _ _ _ Htype Hid).
  destruct (hoare_struct_skeleton kind name typenode s Hwf I) as [Hwf1 Hcl].
  destruct (struct_skeleton kind name typenode s) as [[tp|e] s1]; [|done].
  simpl in *. specialize (Hcl tp eq_refl).
  destruct (hoare_structnode2type_setitem id tp s1 Hwf1 Hcl) as [Hwf2 Hcl2].
  apply hoare_struct_body; [exact Hwf2 | exact (Hcl2 tt eq_refl)].
Qed.

Lemma hoare_get_type_body typenode convert_array_to_pointer force_pointer
    name :
  hoare (λ _, True)
    (get_type self_get_type typenode convert_array_to_pointer force_pointer
       name) closed_in.
Proof.
  unfold get_type.
  eapply hoare_bind with
    (Q := λ typedef s, ∀ tp, typedef = Some tp → closed_in tp s).
  { assert (Hnone : hoare (λ _, True) (ret (@None ctype))
              (λ typedef s, ∀ tp, typedef = Some tp → closed_in tp s)).
    { apply hoare_ret. by intros s _ tp. }
    destruct typenode as [| | |declname []| | | | | | | |]; try exact Hnone.
    destruct names as [|ident []]; try exact Hnone.
    eapply hoare_conseq;
      [apply (hoare_declarations_get _ (λ _, True)) | done |].
    intros found s [_ H] tp Htp. by apply H. }
  intros [type|].
  { assert (Hitem : ∀ item length s,
              closed_in (ArrayType item length) s → closed_in item s)
      by done.
    destruct type, convert_array_to_pointer, force_pointer;
      apply hoare_ret; intros s H; specialize (H _ eq_refl);
      unfold closed_in in *; rewrite ?closed_get_type_pointer; auto. }
  assert (Hptr : ∀ n a b c,
    hoare (λ _, True)
      (t <- self_get_type n a b c ;; ret (_get_type_pointer t)) closed_in).
  { intros. eapply hoare_bind; [apply self_hoare|]. intros t.
    apply hoare_ret. intros s H. unfold closed_in.
    by rewrite closed_get_type_pointer. }
  assert (Hforce : ∀ n a b c,
    hoare (λ _, True)
      (t <- self_get_type n a b c ;; ret (PointerType t)) closed_in).
  { intros. eapply hoare_bind; [apply self_hoare|]. intros t.
    by apply hoare_ret. }
  eapply hoare_pre with (P := λ _, True); [done|].
  destruct typenode as [| | |declname type| | | | | | | |];
    try destruct convert_array_to_pointer;
    try destruct force_pointer;
    try apply hoare_raise; try apply Hptr; try apply Hforce.
  all: try (destruct type; try apply hoare_raise).
  all: try apply hoare_get_struct_or_union_type.
  all: try apply hoare_get_enum_type.
  all: try apply hoare_parse_function_type.
  all: try (apply hoare_bind_lift; intros ? _).
  all: try (case_bool_decide; by apply hoare_ret).
  all: eapply hoare_bind; [apply self_hoare|]; intros t; by apply hoare_ret.
Qed.

End ResolverWellFormed.

Lemma hoare_get_type fuel :
  ∀ typenode convert_array_to_pointer force_pointer name,
    hoare (λ _, True)
      (_get_type fuel typenode convert_array_to_pointer force_pointer name)
      closed_in.
Proof.
  induction fuel as [|fuel IH]; intros typenode cap fp name; simpl.
  - apply hoare_raise.
  - apply hoare_get_type_body; [apply preserves_get_type | exact IH].
Qed.

(** *** The entry points *)

(** Declaring a resolved type under a key that is no tag key. *)
Lemma hoare_declare_resolved (m : M ctype) key :
  ¬ tag_key key → hoare (λ _, True) m closed_in →
  hoare (λ _, True) (tp <- m ;; _declare key tp) (λ _ _, True).
Proof.
  intros Hkey Hm. eapply hoare_bind; [exact Hm|]. intros tp.
  eapply hoare_conseq; [apply hoare_declare| |done].
  intros s Hcl. split; [done | by apply tagged_other].
Qed.

Lemma hoare_discard {A} (m : M A) Q :
  hoare (λ _, True) m Q →
  hoare (λ _, True) (_ <- m ;; ret tt) (λ _ _, True).
Proof.
  intros Hm. eapply hoare_bind; [exact Hm|]. intros a. by apply hoare_ret.
Qed.

Lemma hoare_parse_decl fuel decl :
  hoare (λ _, True) (_parse_decl fuel decl) (λ _ _, True).
Proof.
  assert (Hret : hoare (λ _, True) (ret tt) (λ _ _, True))
    by by apply hoare_ret.
  assert (Hvar : ∀ node declname,
    hoare (λ _, True)
      match declname with
      | Some name =>
          if truthy declname then
            tp <- _get_type fuel node false false None ;;
            _declare ("variable " +:+ name) tp
          else ret tt
      | None => ret tt
      end (λ _ _, True)).
  { intros node [name|]; [|done]. destruct (truthy _); [|done].
    apply hoare_declare_resolved;
      [apply tag_key_not_variable | apply hoare_get_type]. }
  destruct decl as [declname node bitsize| | | | | | | | | | |];
    try apply hoare_raise.
  unfold _parse_decl.
  destruct node as [| | | | | | |args result|id name decls|id name decls
                   |name values|].
  all: try (apply hoare_bind_same;
              [intros s; by destruct (negb (truthy declname))|];
            intros ?; apply Hvar).
  - destruct declname as [name|]; [|apply hoare_raise].
    apply hoare_declare_resolved;
      [apply tag_key_not_function | apply hoare_get_type].
  - eapply hoare_bind with (Q := λ _ _, True); [|intros ?; apply Hvar].
    destruct decls; [|done].
    eapply hoare_discard, hoare_get_struct_or_union_type;
      [apply preserves_get_type | apply hoare_get_type].
  - eapply hoare_bind with (Q := λ _ _, True); [|intros ?; apply Hvar].
    destruct decls; [|done].
    eapply hoare_discard, hoare_get_struct_or_union_type;
      [apply preserves_get_type | apply hoare_get_type].
  - eapply hoare_bind with (Q := λ _ _, True); [|intros ?; apply Hvar].
    destruct values; [|done].
    eapply hoare_discard, hoare_get_enum_type.
Qed.

Lemma hoare_parse_decls fuel ext :
  hoare (λ _, True) (parse_decls fuel ext) (λ _ _, True).
Proof.
  induction ext as [|decl rest IH]; simpl; [by apply hoare_ret|].
  eapply hoare_bind with (Q := λ _ _, True); [|intros ?; exact IH].
  destruct decl as [| name type | | | | | | | | | |];
    try apply hoare_raise; [apply hoare_parse_decl|].
  destruct name as [n|]; [|apply hoare_raise].
  destruct (truthy _); [|apply hoare_raise].
  apply hoare_declare_resolved;
    [apply tag_key_not_typedef | apply hoare_get_type].
Qed.

Lemma hoare_parse cparser_parse fuel csource :
  hoare (λ _, True) (parse cparser_parse fuel csource) (λ _ _, True).
Proof.
  unfold parse. apply hoare_bind_same; [done|]. intros ext.
  apply hoare_bind_lift. intros iterator _. apply hoare_parse_decls.
Qed.

Lemma hoare_parse_type cparser_parse fuel cdecl force_pointer :
  hoare (λ _, True) (parse_type cparser_parse fuel cdecl force_pointer)
    closed_in.
Proof.
  unfold parse_type. apply hoare_bind_same; [done|]. intros ext.
  apply hoare_bind_lift. intros typenode _. apply hoare_get_type.
Qed.

Lemma well_formed_init : well_formed init.
Proof. by split. Qed.

Lemma well_formed_forget_nodes s :
  well_formed s → well_formed (forget_nodes s).
Proof. intros [Hd Hc Hh]. by split. Qed.

(** X13: every state that a parser reaches from its initial state, through
    any sequence of calls of [parse] and [parse_type] that return or raise,
    is well-formed: the types held by the Declaration Table, by the cache
    of struct and union nodes and by the field lists of the type objects
    refer only to type objects that exist, and an entry of the table under
    [struct N], [union N] or [enum N] is a struct, union or enum object
    carrying the tag [N]. *)
Theorem reachable_states_are_well_formed cparser_parse fuel calls :
  well_formed (run_calls cparser_parse fuel calls init).
Proof.
  induction calls as [|c calls IH] using rev_ind; [apply well_formed_init|].
  unfold run_calls in *. rewrite foldl_app. simpl.
  destruct c; simpl; apply well_formed_forget_nodes.
  - by apply hoare_parse.
  - by apply hoare_parse_type.
Qed.

(** ** Pointers to functions *)

Lemma parse_function_type_returns_function self_get_type typenode funcname
    s tp s' :
  parse_function_type self_get_type typenode funcname s = (Ok tp, s') →
  ∃ args result ellipsis, tp = FunctionType args result ellipsis.
Proof.
  destruct typenode; try done. simpl. intros H.
  apply bind_ok_inv in H as (ellipsis & s1 & _ & H).
  apply bind_ok_inv in H as (params & s2 & _ & H).
  apply bind_ok_inv in H as (args' & s3 & _ & H).
  apply bind_ok_inv in H as (result' & s4 & _ & [= <- <-]). eauto.
Qed.

(** X14: a pointer to a function is the function.  A pointer declarator
    around a function declarator, as in [int ( *f)(int)], resolves to the
    very type of the function declarator, in the same final state and with
    the same errors: no pointer type is put around a function type. *)
Theorem pointer_to_function_is_the_function fuel args result name s :
  _get_type (S fuel) (PtrDecl (FuncDecl args result)) false false name s
  = _get_type fuel (FuncDecl args result) false false None s.
Proof.
  change (_get_type (S fuel) (PtrDecl (FuncDecl args result)) false false
            name s)
    with (bind (_get_type fuel (FuncDecl args result) false false None)
            (λ t, ret (_get_type_pointer t)) s).
  unfold bind. destruct fuel as [|fuel]; [done|].
  destruct (_get_type (S fuel) (FuncDecl args result) false false None s)
    as [[tp|e] s1] eqn:E; [|done].
  change (_get_type (S fuel) (FuncDecl args result) false false None s)
    with (parse_function_type (_get_type fuel) (FuncDecl args result) None s)
    in E.
  by apply parse_function_type_returns_function in E as (a & r & e & ->).
Qed.

(** ** A field list inside its own field list *)

(** X15: the duplicate check looks at the fields when the field list is
    entered, not when the fields are set.  For
    [struct tag { struct tag { } *field; }] on an unregistered tag, the
    inner field list is set while the outer one is being resolved, and the
    outer one then replaces it: the call returns and the object has the
    outer field only.  The same two field lists in sequence, inner first,
    are rejected as a duplicate declaration. *)
Theorem nested_redefinition_is_not_rejected fuel outer inner tag field
    typenode s :
  _structnode2type s !! outer = None →
  _structnode2type s !! inner = None →
  outer ≠ inner →
  _declarations s !! ("struct " +:+ tag) = None →
  let outer_node := Extra_examples.redefining_struct outer inner tag field in
  let inner_node := Struct inner (Some tag) (Some []) in
  let l := List.length (heap s) in
  (let r := _get_struct_or_union_type (S (S fuel)) "struct" outer_node
              typenode s in
   r.1 = Ok (Obj l)
   ∧ heap r.2 !! l
     = Some (StructType tag (Some [Some field]) (Some [PointerType (Obj l)])
               (Some [-1])))
  ∧ (let r1 := _get_struct_or_union_type (S (S fuel)) "struct" inner_node
                 typenode s in
     let r2 := _get_struct_or_union_type (S (S fuel)) "struct" outer_node
                 typenode r1.2 in
     r1.1 = Ok (Obj l)
     ∧ heap r1.2 !! l = Some (StructType tag (Some []) (Some []) (Some []))
     ∧ r2.1 = Raise (CDefError ("duplicate declaration of struct " +:+ tag))).
Proof.
  intros Houter Hinner Hne Hnone outer_node inner_node l.
  unfold outer_node, inner_node, Extra_examples.redefining_struct.
  change ("struct " +:+ tag) with ("struct" +:+ " " +:+ tag) in *.
  split.
  - run. rewrite Houter. run. rewrite Hnone. run. rewrite Hnone. run.
    rewrite lookup_app_r, Nat.sub_diag by lia. run.
    unfold get_type. run.
    rewrite lookup_insert_ne, Hinner by done. run.
    rewrite lookup_insert_eq. run.
    rewrite lookup_app_r, Nat.sub_diag by lia. run.
    rewrite !alter_app_r_alt, Nat.sub_diag by lia. simpl.
    rewrite lookup_app_r, Nat.sub_diag by lia. done.
  - run. rewrite Hinner. run. rewrite Hnone. run. rewrite Hnone. run.
    rewrite lookup_app_r, Nat.sub_diag by lia. run.
    rewrite alter_app_r_alt, Nat.sub_diag by lia. simpl.
    rewrite lookup_app_r, Nat.sub_diag by lia. simpl.
    rewrite lookup_insert_ne, Houter by done. run.
    rewrite lookup_insert_eq. run.
    rewrite lookup_app_r, Nat.sub_diag by lia. done.
Qed.

Lemma nested_redefinition_is_not_rejected_witness :
  let outer_node := Extra_examples.redefining_struct 1 2 "S" "p" in
  let r := _get_struct_or_union_type 2 "struct" outer_node None init in
  let r1 := _get_struct_or_union_type 2 "struct" (Struct 2 (Some "S") (Some []))
              None init in
  (r.1 = Ok (Obj 0)
   ∧ heap r.2 !! 0%nat
     = Some (StructType "S" (Some [Some "p"]) (Some [PointerType (Obj 0)])
               (Some [-1])))
  ∧ (_get_struct_or_union_type 2 "struct" outer_node None r1.2).1
    = Raise (CDefError "duplicate declaration of struct S").
Proof.
  destruct (nested_redefinition_is_not_rejected 0 1 2 "S" "p" None init)
    as [H1 (_ & _ & H2)];
    [reflexivity | reflexivity | lia | reflexivity |].
  split; [exact H1 | exact H2].
Defined.
